(** * Book search engine: inverted index and TF-IDF ranking (app.py)

    A shallow embedding of the indexing and ranking core of [app.py]:
    [Document], [InvertedIndex], [SearchEngine] and the two
    [display_results] presenters, followed by the properties of the
    specification.

    Modelling conventions.
    - Python [str] is [string]; the text is ASCII: the whitespace of
      [str.split()] is the ASCII whitespace of [str.isspace] and
      [str.lower()] folds [A-Z] only.
    - Python [float] is idealised as a real number ([R]); the guards of
      the operations that can raise ([/] on a zero divisor, [math.log]
      on a non-positive argument) are kept.
    - A [dict] whose iteration order is observed ([InvertedIndex.index],
      [query_vector]) is an association list in insertion order; a dict
      that is only read by key ([term_frequencies], [idf_scores]) is a
      [gmap]; [set(...)] is a [gset].
    - Exceptions are the [Raise] results of the [result] monad. *)

From Stdlib Require Import Reals Lra Lia Ascii String List Sorted Permutation.
From stdpp Require Import base gmap sets list strings.

Local Open Scope string_scope.
Local Open Scope list_scope.

(** ** Exceptions *)

Inductive PyError : Type :=
  | ZeroDivisionError
  | ValueError
  | KeyError
  | IndexError.

Inductive result (A : Type) : Type :=
  | Ok (a : A)
  | Raise (e : PyError).

Arguments Ok {A} a.
Arguments Raise {A} e.

#[export] Instance result_ret : MRet result := fun A a => Ok a.

#[export] Instance result_bind : MBind result := fun A B k m =>
  match m with
  | Ok a => k a
  | Raise e => Raise e
  end.

(** A [for] loop whose body can raise: the accumulator is threaded from
    left to right and the first exception ends the loop. *)
Fixpoint for_each {A St : Type} (body : St → A → result St) (xs : list A) (s : St)
  : result St :=
  match xs with
  | [] => Ok s
  | x :: xs' => s' ← body s x; for_each body xs' s'
  end.

(** A list comprehension whose element expression can raise. *)
Fixpoint collect {A B : Type} (f : A → result B) (xs : list A) : result (list B) :=
  match xs with
  | [] => Ok []
  | x :: xs' => y ← f x; ys ← collect f xs'; Ok (y :: ys)
  end.

(** ** Built-in string operations *)

Module Str.

(** [str.isspace] on an ASCII character: tab, line feed, vertical tab,
    form feed, carriage return, the four separators 28-31 and space. *)
Definition is_space (c : ascii) : bool :=
  let n := nat_of_ascii c in
  ((9 <=? n) && (n <=? 13) || (28 <=? n) && (n <=? 32))%nat.

(** [str.split()] with no argument: the maximal runs of non-whitespace
    characters, in order. *)
Fixpoint split (s : string) : list string :=
  match s with
  | EmptyString => []
  | String c s' =>
      if is_space c then split s'
      else
        match s' with
        | EmptyString => [String c EmptyString]
        | String c' _ =>
            if is_space c' then String c EmptyString :: split s'
            else
              match split s' with
              | w :: ws => String c w :: ws
              | [] => [String c EmptyString]
              end
        end
  end.

Definition lower_char (c : ascii) : ascii :=
  let n := nat_of_ascii c in
  if ((65 <=? n) && (n <=? 90))%nat then ascii_of_nat (n + 32) else c.

(** [str.lower()]. *)
Fixpoint lower (s : string) : string :=
  match s with
  | EmptyString => EmptyString
  | String c s' => String (lower_char c) (lower s')
  end.

(** [sep.join(parts)]. *)
Fixpoint join (sep : string) (parts : list string) : string :=
  match parts with
  | [] => EmptyString
  | [p] => p
  | p :: ps => p +:+ sep +:+ join sep ps
  end.

(** [text.count(sub)]: the number of non-overlapping occurrences of
    [sub] in [text], scanning from the left.  After a match the scan
    resumes behind it: [skip] is the number of characters still to step
    over.  For the empty [sub] every position matches, the end included. *)
Fixpoint count_from (sub : string) (skip : nat) (text : string) : nat :=
  match text with
  | EmptyString => match sub with EmptyString => 1 | _ => 0 end
  | String _ text' =>
      match skip with
      | S k => count_from sub k text'
      | O =>
          if String.prefix sub text
          then S (count_from sub (String.length sub - 1) text')
          else count_from sub 0 text'
      end
  end.

Definition count (text sub : string) : nat := count_from sub 0 text.

End Str.

(** [list.count(x)]. *)
Definition list_count (x : string) (xs : list string) : nat :=
  length (filter (fun y => y = x) xs).

(** ** Numbers *)

#[export] Instance Rlt_decision (x y : R) : Decision (x < y)%R := Rlt_dec x y.
#[export] Instance Rge_decision (x y : R) : Decision (x >= y)%R := Rge_dec x y.

(** [a / b] on two non-negative [int]s: true division, which raises on
    a zero divisor. *)
Definition truediv (a b : nat) : result R :=
  match b with
  | O => Raise ZeroDivisionError
  | S _ => Ok (INR a / INR b)%R
  end.

(** [math.log(x)]: the natural logarithm, a [ValueError] outside its
    domain. *)
Definition math_log (x : R) : result R :=
  if decide (0 < x)%R then Ok (ln x) else Raise ValueError.

(** [math.ceil(n / p)] for two non-negative [int]s. *)
Definition math_ceil_div (n p : nat) : result nat :=
  match p with
  | O => Raise ZeroDivisionError
  | S _ => Ok ((n + p - 1) / p)%nat
  end.

(** ** [list.sort(key=..., reverse=True)]

    Python's sort is stable, also under [reverse=True]: elements with
    equal keys keep their relative order, which fixes the result
    whatever the algorithm.  Insertion from the right puts an element
    before every element of the sorted tail whose key is not strictly
    greater. *)

Section StableSort.
Context {A : Type} (key : A → R).

Fixpoint insert_desc (x : A) (l : list A) : list A :=
  match l with
  | [] => [x]
  | y :: l' =>
      if decide (key x < key y)%R then y :: insert_desc x l' else x :: l
  end.

Definition sort_desc (l : list A) : list A := foldr insert_desc [] l.

(** The order of the output: a greater key first; among equal keys,
    the element that was [before] the other in the input. *)
Definition desc_then (before : A → A → Prop) (a b : A) : Prop :=
  (key a > key b)%R ∨ (key a = key b ∧ before a b).
End StableSort.

(** ** [collections.defaultdict(list)]

    The store behind [InvertedIndex.index]: keys [(token, field)] in
    insertion order, each with its posting list. *)

Module DefaultDict.

Definition key : Type := string * string.
Definition t : Type := list (key * list nat).

Fixpoint lookup (k : key) (d : t) : option (list nat) :=
  match d with
  | [] => None
  | (k', v) :: d' => if decide (k' = k) then Some v else lookup k d'
  end.

(** [d.get(k, default)]: a read; a missing key is not inserted. *)
Definition get (k : key) (default : list nat) (d : t) : list nat * t :=
  (match lookup k d with Some v => v | None => default end, d).

(** [d[k]]: a missing key is first inserted with [default_factory()],
    the empty list. *)
Definition getitem (k : key) (d : t) : list nat * t :=
  match lookup k d with
  | Some v => (v, d)
  | None => ([], d ++ [(k, [])])
  end.

(** [.append(x)] on the list object stored under [k]. *)
Fixpoint append_at (k : key) (x : nat) (d : t) : t :=
  match d with
  | [] => []
  | (k', v) :: d' =>
      if decide (k' = k) then (k', v ++ [x]) :: d' else (k', v) :: append_at k x d'
  end.

(** [d[k].append(x)]: the subscript, then the append on the list object
    it returned, which is the one stored under [k]. *)
Definition getitem_append (k : key) (x : nat) (d : t) : t :=
  let '(_, d) := getitem k d in append_at k x d.

(** The keys of the store, in insertion order. *)
Definition keys (d : t) : list key := map fst d.

(** [d.items()], in insertion order. *)
Definition items (d : t) : list (key * list nat) := d.

End DefaultDict.

(** ** [class Document] *)

Module Document.

Record t : Type := mk {
  doc_id : nat;
  title : string;
  author : string;
  description : string;
  text : string;
  term_frequencies : gmap string R;
  length : nat
}.

(** [Document.__init__]. *)
Definition init (doc_id : nat) (title author description : string) : t :=
  let text := Str.join " " [title; author; description] in
  {| doc_id := doc_id;
     title := title;
     author := author;
     description := description;
     text := text;
     term_frequencies := ∅;
     length := List.length (Str.split text) |}.

Definition set_term_frequencies (self : t) (tf : gmap string R) : t :=
  {| doc_id := doc_id self;
     title := title self;
     author := author self;
     description := description self;
     text := text self;
     term_frequencies := tf;
     length := length self |}.

(** [Document.compute_term_frequencies]; the [index] argument is not
    used by the method. *)
Definition compute_term_frequencies (self : t) (index : DefaultDict.t) : result t :=
  tf ← for_each
         (fun tf term =>
            v ← truediv (Str.count (text self) term) (length self);
            Ok (<[term := v]> tf))
         (elements (list_to_set (Str.split (text self)) : gset string))
         (term_frequencies self);
  Ok (set_term_frequencies self tf).

End Document.

(** ** [class InvertedIndex]

    The methods pass the [defaultdict] behind [self.index] explicitly. *)

Module InvertedIndex.

(** [InvertedIndex.__init__]. *)
Definition init : DefaultDict.t := [].

(** [InvertedIndex.add_tokens_to_index]. *)
Definition add_tokens_to_index (book_id : nat) (tokens : list string)
    (field : string) (index : DefaultDict.t) : DefaultDict.t :=
  foldl
    (fun index token => DefaultDict.getitem_append (token, field) book_id index)
    index tokens.

(** [InvertedIndex.index_data]. *)
Definition index_data (documents : list Document.t) (index : DefaultDict.t)
  : DefaultDict.t :=
  foldl
    (fun index doc =>
       let title_tokens := Str.split (Document.title doc) in
       let author_tokens := Str.split (Document.author doc) in
       let description_tokens := Str.split (Document.description doc) in
       let index :=
         add_tokens_to_index (Document.doc_id doc) title_tokens "title" index in
       let index :=
         add_tokens_to_index (Document.doc_id doc) author_tokens "author" index in
       add_tokens_to_index (Document.doc_id doc) description_tokens "description" index)
    index documents.

(** The body of the loop of [InvertedIndex.search] for one token. *)
Definition search_token (st : list nat * DefaultDict.t) (token : string)
  : list nat * DefaultDict.t :=
  let '(matching_book_ids, index) := st in
  let '(in_title, index) := DefaultDict.get (token, "title") [] index in
  let '(in_author, index) := DefaultDict.get (token, "author") [] index in
  let '(in_description, index) := DefaultDict.get (token, "description") [] index in
  let book_ids_for_token := in_title ++ in_author ++ in_description in
  (matching_book_ids ++ book_ids_for_token, index).

(** [InvertedIndex.search]: the result and the index after the call.
    The order of [list(set(...))] is not fixed by Python; the order of
    [elements] stands for it, and no property depends on it. *)
Definition search (query : string) (index : DefaultDict.t)
  : list nat * DefaultDict.t :=
  let query_tokens := Str.split query in
  let '(matching_book_ids, index) := foldl search_token ([], index) query_tokens in
  (elements (list_to_set matching_book_ids : gset nat), index).

End InvertedIndex.

(** The posting list read for one key: [index.get(key, [])]. *)
Definition posting (k : DefaultDict.key) (index : DefaultDict.t) : list nat :=
  default [] (DefaultDict.lookup k index).

(** The field-union lookup of one token, duplicates kept. *)
Definition lookup_any_field (index : DefaultDict.t) (token : string) : list nat :=
  posting (token, "title") index ++ posting (token, "author") index
    ++ posting (token, "description") index.

(** ** A [dict] in insertion order *)

(** [d[k] = v]: the value of an existing key is replaced in place, a new
    key goes to the end. *)
Fixpoint dict_set {V : Type} (k : string) (v : V) (d : list (string * V))
  : list (string * V) :=
  match d with
  | [] => [(k, v)]
  | (k', v') :: d' =>
      if decide (k' = k) then (k, v) :: d' else (k', v') :: dict_set k v d'
  end.

(** ** [class SearchEngine] *)

Module SearchEngine.

Record t : Type := mk {
  documents : list Document.t;
  index : DefaultDict.t;
  idf_scores : gmap string R
}.

(** The body of the loop of [compute_idf_scores], for one item
    [(term_field, doc_list)] of the index. *)
Definition idf_step (num_docs : nat) (idf_scores : gmap string R)
    (item : DefaultDict.key * list nat) : result (gmap string R) :=
  let '(term_field, doc_list) := item in
  let '(term, _) := term_field in
  q ← truediv num_docs (1 + length doc_list);
  v ← math_log q;
  Ok (<[Str.lower term := v]> idf_scores).

(** [SearchEngine.compute_idf_scores]. *)
Definition compute_idf_scores (documents : list Document.t) (index : DefaultDict.t)
  : result (gmap string R) :=
  let num_docs := length documents in
  for_each (idf_step num_docs) (DefaultDict.items index) ∅.

(** [SearchEngine.__init__]. *)
Definition init (documents : list Document.t) : result t :=
  let index := InvertedIndex.index_data documents InvertedIndex.init in
  idf_scores ← compute_idf_scores documents index;
  Ok {| documents := documents; index := index; idf_scores := idf_scores |}.

(** The query-term multiplicity map of [search]. *)
Definition query_vector_of (query_terms : list string) : list (string * nat) :=
  foldl (fun qv term => dict_set term (list_count term query_terms) qv) [] query_terms.

(** The inner loop of [search]: the score of one document.  The loop
    runs over the keys of [query_vector]; each key is paired with its
    value here. *)
Definition score_document (self : t) (query_vector : list (string * nat))
    (doc : Document.t) : result R :=
  for_each
    (fun score (entry : string * nat) =>
       let '(term, n) := entry in
       match Document.term_frequencies doc !! term with
       | Some tf =>
           match idf_scores self !! term with
           | Some idf => Ok (score + tf * idf * (1 + INR n))%R
           | None => Raise KeyError
           end
       | None => Ok score
       end)
    query_vector 0%R.

(** [SearchEngine.search]. *)
Definition search (self : t) (query : string) : result (list (nat * R)) :=
  let query_terms := Str.split (Str.lower query) in
  let query_vector := query_vector_of query_terms in
  ranking ← collect
              (fun doc =>
                 score ← score_document self query_vector doc;
                 Ok (Document.doc_id doc, score))
              (documents self);
  Ok (sort_desc snd ranking).

(** The score of a document, 0 standing for a raised exception. *)
Definition score_of (self : t) (query : string) (doc : Document.t) : R :=
  match score_document self (query_vector_of (Str.split (Str.lower query))) doc with
  | Ok score => score
  | Raise _ => 0%R
  end.

End SearchEngine.

(** ** Start-up: the corpus and the engine *)

(** One record of [preprocessed_books]: the normalised fields of a book. *)
Record Book : Type := mkBook {
  book_title : string;
  book_author : string;
  book_description : string
}.

(** [enumerate(xs)]. *)
Definition enumerate {A : Type} (xs : list A) : list (nat * A) :=
  zip (seq 0 (length xs)) xs.

(** A document built from a record and given its term frequencies, as
    in the body of the start-up loop. *)
Definition prepare (entry : nat * Book) : result Document.t :=
  let '(book_id, book) := entry in
  let doc := Document.init book_id (book_title book) (book_author book)
               (book_description book) in
  Document.compute_term_frequencies doc InvertedIndex.init.

(** The start-up loop that fills [documents]. *)
Definition load_documents (preprocessed_books : list Book) : result (list Document.t) :=
  collect prepare (enumerate preprocessed_books).

(** [search_engine = SearchEngine(documents)]. *)
Definition load_engine (preprocessed_books : list Book) : result SearchEngine.t :=
  documents ← load_documents preprocessed_books;
  SearchEngine.init documents.

(** ** Presenters *)

(** The pieces of the rendered output, one per [append] or [print]. *)
Inductive Piece : Type :=
  | NoMatch
  | NoMatchAbove (threshold : R)
  | PageHeader (number : nat)
  | BookLine (doc_id : nat) (title author : string) (score : R)
  | PageBreak.

(** [xs[i]]. *)
Definition getitem {A : Type} (xs : list A) (i : nat) : result A :=
  match xs !! i with
  | Some x => Ok x
  | None => Raise IndexError
  end.

(** [range(a, b)]. *)
Definition range (a b : nat) : list nat := seq a (b - a).

(** The entries of one page: the inner loop of both presenters. *)
Definition page_entries (search_engine : SearchEngine.t)
    (preprocessed_books : list Book) (filtered_ranking : list (nat * R))
    (start_index end_index : nat) : result (list Piece) :=
  collect
    (fun idx =>
       entry ← getitem filtered_ranking idx;
       let '(doc_id, score) := entry in
       doc ← getitem (SearchEngine.documents search_engine) doc_id;
       original_book_info ← getitem preprocessed_books (Document.doc_id doc);
       Ok (BookLine (Document.doc_id doc) (book_title original_book_info)
             (book_author original_book_info) score))
    (range start_index end_index).

(** The module-level [display_results], called by the request handler:
    threshold 1.0, pages of 5, at most 10 pages. *)
Definition display_results (search_engine : SearchEngine.t)
    (preprocessed_books : list Book) (ranking : list (nat * R))
  : result (list Piece) :=
  match ranking with
  | [] => Ok [NoMatch]
  | _ =>
      let filtered_ranking := filter (fun p => snd p >= 1)%R ranking in
      match filtered_ranking with
      | [] => Ok [NoMatchAbove 1%R]
      | _ =>
          let filtered_ranking := sort_desc snd filtered_ranking in
          let num_pages := Nat.min (length filtered_ranking / 5 + 1) 10 in
          pages ← collect
                    (fun page_num =>
                       let start_index := (page_num * 5)%nat in
                       let end_index :=
                         Nat.min (start_index + 5) (length filtered_ranking) in
                       entries ← page_entries search_engine preprocessed_books
                                   filtered_ranking start_index end_index;
                       Ok (PageHeader (page_num + 1) :: entries ++ [PageBreak]))
                    (range 0 num_pages);
          Ok (concat pages)
      end
  end.

(** The method [SearchEngine.display_results]: the lines it prints.  The
    method reads the documents of the global [search_engine]. *)
Definition SearchEngine_display_results (self search_engine : SearchEngine.t)
    (preprocessed_books : list Book) (ranking : list (nat * R))
    (threshold : R) (page_size : nat) : result (list Piece) :=
  match ranking with
  | [] => Ok [NoMatch]
  | _ =>
      let filtered_ranking := filter (fun p => snd p >= threshold)%R ranking in
      match filtered_ranking with
      | [] => Ok [NoMatchAbove threshold]
      | _ =>
          let filtered_ranking := sort_desc snd filtered_ranking in
          num_pages ← math_ceil_div (length filtered_ranking) page_size;
          pages ← collect
                    (fun page_num =>
                       let start_index := (page_num * page_size)%nat in
                       let end_index :=
                         Nat.min (start_index + page_size) (length filtered_ranking) in
                       entries ← page_entries search_engine preprocessed_books
                                   filtered_ranking start_index end_index;
                       Ok (PageHeader (page_num + 1) :: entries))
                    (range 0 num_pages);
          Ok (concat pages)
      end
  end.

(** The number of entries at the head of an output. *)
Fixpoint leading_entries (out : list Piece) : nat :=
  match out with
  | BookLine _ _ _ _ :: out' => S (leading_entries out')
  | _ => 0
  end.

(** The pages of an output: for each page header, in order, the number
    of entries that follow it directly. *)
Fixpoint page_sizes (out : list Piece) : list nat :=
  match out with
  | [] => []
  | PageHeader _ :: out' => leading_entries out' :: page_sizes out'
  | _ :: out' => page_sizes out'
  end.

(** ** Vocabulary of the properties *)

(** Every id of the ranking names a document of the engine whose own
    id names a record. *)
Definition resolvable (search_engine : SearchEngine.t)
    (preprocessed_books : list Book) (ranking : list (nat * R)) : Prop :=
  ∀ doc_id score, (doc_id, score) ∈ ranking →
    ∃ doc book,
      SearchEngine.documents search_engine !! doc_id = Some doc
      ∧ preprocessed_books !! Document.doc_id doc = Some book.

(** An entry of a page. *)
Definition is_line (piece : Piece) : Prop :=
  match piece with BookLine _ _ _ _ => True | _ => False end.

(** The entries of the page [page_num] of a ranking of [n] pairs. *)
Definition page_size_of (page_size n page_num : nat) : nat :=
  (Nat.min (page_num * page_size + page_size) n - page_num * page_size)%nat.

(** The engine of the empty corpus. *)
Definition empty_engine : SearchEngine.t :=
  {| SearchEngine.documents := [];
     SearchEngine.index := [];
     SearchEngine.idf_scores := ∅ |}.

(** A corpus of [n] records, and a ranking of [total] documents of which
    the first [qualifying] have score 2 and the others score 0. *)
Definition corpus_of (n : nat) : list Book :=
  map (λ _, mkBook "dune" "herbert" "classic") (seq 0 n).

Definition ranking_of (qualifying total : nat) : list (nat * R) :=
  map (λ i, (i, 2%R)) (seq 0 qualifying)
  ++ map (λ i, (i, 0%R)) (seq qualifying (total - qualifying)).

(** The number of occurrences of a token among the tokens of one field
    of a document; 0 for a field name the index does not use. *)
Definition field_occurrences (token field : string) (doc : Document.t) : nat :=
  if decide (field = "title") then list_count token (Str.split (Document.title doc))
  else if decide (field = "author")
       then list_count token (Str.split (Document.author doc))
  else if decide (field = "description")
       then list_count token (Str.split (Document.description doc))
  else 0%nat.

(** A token: a string that is not empty and holds no whitespace. *)
Fixpoint no_space (w : string) : bool :=
  match w with
  | EmptyString => true
  | String c w' => negb (Str.is_space c) && no_space w'
  end.

Definition is_token (w : string) : bool :=
  match w with
  | EmptyString => false
  | String _ _ => no_space w
  end.

(** The POST branch of the request handler [index]: the query of the
    form is searched and the ranking rendered. *)
Definition index_post (search_engine : SearchEngine.t)
    (preprocessed_books : list Book) (query : string) : result (list Piece) :=
  ranking ← SearchEngine.search search_engine query;
  display_results search_engine preprocessed_books ranking.

(** The entries of an output, in order. *)
Fixpoint book_lines (out : list Piece) : list Piece :=
  match out with
  | [] => []
  | BookLine i t a s :: out' => BookLine i t a s :: book_lines out'
  | _ :: out' => book_lines out'
  end.

(** The entry a presenter renders for a pair of the ranking: the id of
    the document stored at the pair's id, the title and author of the
    record at that document's id, and the pair's score. *)
Definition shows (search_engine : SearchEngine.t) (preprocessed_books : list Book)
    (piece : Piece) (pair : nat * R) : Prop :=
  ∃ doc book,
    SearchEngine.documents search_engine !! pair.1 = Some doc
    ∧ preprocessed_books !! Document.doc_id doc = Some book
    ∧ piece = BookLine (Document.doc_id doc) (book_title book) (book_author book)
                pair.2.

(** The entry for a pair of the ranking when documents are stored at
    their own ids: the record at the pair's id, with the pair's score. *)
Definition line_of (preprocessed_books : list Book) (pair : nat * R) : option Piece :=
  book ← preprocessed_books !! pair.1;
  Some (BookLine pair.1 (book_title book) (book_author book) pair.2).

(** ** [preprocess_text]

    The stop-word set and the stemmer come from a library and are
    arguments here; the regular expression is the one the function
    builds, a character set. *)

(** [string.punctuation]: the ASCII characters 33-47, 58-64, 91-96 and
    123-126, in this order. *)
Definition string_punctuation : string :=
  string_of_list_ascii
    (map ascii_of_nat (seq 33 15 ++ seq 58 7 ++ seq 91 6 ++ seq 123 4)).

Definition backslash : ascii := ascii_of_nat 92.

(** An item of a character set of a regular expression. *)
Inductive SetItem : Type :=
  | Literal (c : ascii)
  | Range (lo hi : ascii).

Definition is_alnum (c : ascii) : bool :=
  let n := nat_of_ascii c in
  ((48 <=? n) && (n <=? 57) || (65 <=? n) && (n <=? 90)
   || (97 <=? n) && (n <=? 122))%nat.

(** One member of a set: a character, or a backslash and the character
    it escapes, which stands for itself unless it is a letter or a
    digit (those escapes are outside this fragment). *)
Definition read_member (s : string) : option (ascii * string) :=
  match s with
  | EmptyString => None
  | String c rest =>
      if Ascii.eqb c backslash then
        match rest with
        | String e rest' => if is_alnum e then None else Some (e, rest')
        | EmptyString => None
        end
      else Some (c, rest)
  end.

(** The items of a set, read after its opening bracket up to the
    bracket that closes it, as [re] reads them: a ["]"] closes the set
    unless it is the first member; a member followed by ["-"] and a
    member is a range; a ["-"] before the closing bracket is a literal.
    [None] stands for a pattern that [re] rejects or that continues
    after the set. *)
Fixpoint parse_set (fuel : nat) (first : bool) (s : string)
  : option (list SetItem) :=
  match fuel with
  | O => None
  | S fuel' =>
      let members :=
        match read_member s with
        | None => None
        | Some (lo, rest) =>
            match rest with
            | String "-" (String "]" EmptyString) => Some [Literal lo; Literal "-"]
            | String "-" (String "]" _) => None
            | String "-" rest' =>
                match read_member rest' with
                | None => None
                | Some (hi, rest'') =>
                    if (nat_of_ascii hi <? nat_of_ascii lo)%nat then None
                    else items ← parse_set fuel' false rest'';
                         Some (Range lo hi :: items)
                end
            | _ => items ← parse_set fuel' false rest; Some (Literal lo :: items)
            end
        end in
      match s with
      | String "]" rest =>
          if first then members
          else match rest with EmptyString => Some [] | _ => None end
      | _ => members
      end
  end.

(** The set of a pattern that is one character set; a negated set is
    outside this fragment. *)
Definition compile_set (pattern : string) : option (list SetItem) :=
  match pattern with
  | String "[" (String "^" _) => None
  | String "[" body => parse_set (String.length body) true body
  | _ => None
  end.

Definition in_set (items : list SetItem) (c : ascii) : bool :=
  existsb
    (fun item =>
       match item with
       | Literal a => Ascii.eqb a c
       | Range lo hi =>
           ((nat_of_ascii lo <=? nat_of_ascii c)
            && (nat_of_ascii c <=? nat_of_ascii hi))%nat
       end)
    items.

(** [re.sub(pattern, '', text)] for a pattern that is one character
    set: the characters of the set are deleted. *)
Fixpoint delete_set (items : list SetItem) (text : string) : string :=
  match text with
  | EmptyString => EmptyString
  | String c text' =>
      if in_set items c then delete_set items text'
      else String c (delete_set items text')
  end.

(** [r'[{}]'.format(string.punctuation)]. *)
Definition punctuation_pattern : string := "[" +:+ string_punctuation +:+ "]".

Definition punctuation_set : list SetItem :=
  default [] (compile_set punctuation_pattern).

(** [preprocess_text]. *)
Definition preprocess_text (text : string) (stop_words : gset string)
    (stem : string → string) : string :=
  let text := delete_set punctuation_set (Str.lower text) in
  let words := Str.split text in
  let preprocessed_words :=
    map stem (filter (fun word => word ∉ stop_words) words) in
  let preprocessed_text := Str.join " " preprocessed_words in
  preprocessed_text.

(** The characters of a string. *)
Definition chars (s : string) : list ascii := list_ascii_of_string s.

(** An entry of the store as the index keeps it: a field the index
    uses, and a posting list that is not empty. *)
Definition entry_ok (entry : DefaultDict.key * list nat) : Prop :=
  entry.1.2 ∈ ["title"; "author"; "description"] ∧ entry.2 ≠ [].

(** The item of the index that the loop of [compute_idf_scores]
    processes last for a term of the table: the last item, in insertion
    order, whose term has that lower-case form. *)
Fixpoint last_entry (term : string) (items : list (DefaultDict.key * list nat))
  : option (DefaultDict.key * list nat) :=
  match items with
  | [] => None
  | item :: rest =>
      match last_entry term rest with
      | Some later => Some later
      | None => if decide (Str.lower item.1.1 = term) then Some item else None
      end
  end.

(** What one entry of the query vector adds to the score of a document:
    [tf * idf * (1 + count)] for a term the document holds, nothing for
    another term. *)
Definition contribution (self : SearchEngine.t) (doc : Document.t)
    (entry : string * nat) : R :=
  match Document.term_frequencies doc !! entry.1 with
  | Some tf =>
      match SearchEngine.idf_scores self !! entry.1 with
      | Some idf => (tf * idf * (1 + INR entry.2))%R
      | None => 0%R
      end
  | None => 0%R
  end.

(** The score of a document as a sum over the query vector, in its
    order. *)
Definition score_sum (self : SearchEngine.t) (query_vector : list (string * nat))
    (doc : Document.t) : R :=
  foldl (fun score entry => (score + contribution self doc entry)%R) 0%R query_vector.

(** * Properties *)

(** ** The [result] monad *)

Lemma bind_Ok {A B : Type} (a : A) (k : A → result B) : (x ← Ok a; k x) = k a.
Proof. reflexivity. Qed.

Lemma collect_total {A B : Type} (f : A → result B) (g : A → B) xs :
  (∀ x, x ∈ xs → f x = Ok (g x)) → collect f xs = Ok (map g xs).
Proof.
  induction xs as [|x xs IH]; intros Hf; simpl; [done|].
  rewrite Hf by left. simpl. rewrite IH; [done|].
  intros y Hy. apply Hf. by right.
Qed.

Lemma collect_Ok_length {A B : Type} (f : A → result B) xs ys :
  collect f xs = Ok ys → length ys = length xs.
Proof.
  revert ys. induction xs as [|x xs IH]; intros ys; simpl.
  - by intros [= <-].
  - destruct (f x) as [y|]; simpl; [|done].
    destruct (collect f xs) as [ys'|]; simpl; [|done].
    intros [= <-]. simpl. f_equal. by apply IH.
Qed.

Lemma collect_Ok_lookup {A B : Type} (f : A → result B) xs ys i x :
  collect f xs = Ok ys → xs !! i = Some x → ∃ y, ys !! i = Some y ∧ f x = Ok y.
Proof.
  revert ys i. induction xs as [|x0 xs IH]; intros ys i; simpl; [done|].
  destruct (f x0) as [y0|] eqn:Hy0; simpl; [|done].
  destruct (collect f xs) as [ys'|]; simpl; [|done].
  intros [= <-]. destruct i as [|i]; simpl.
  - intros [= <-]. eauto.
  - intros Hx. by apply IH.
Qed.

Lemma collect_all_Ok {A B : Type} (f : A → result B) xs :
  (∀ x, x ∈ xs → ∃ y, f x = Ok y) → ∃ ys, collect f xs = Ok ys.
Proof.
  induction xs as [|x xs IH]; intros Hf; cbn [collect]; [by eexists|].
  destruct (Hf x) as [y ->]; [left|].
  destruct IH as [ys ->]; [intros z Hz; apply Hf; by right|].
  by eexists.
Qed.

Lemma collect_Ok_elem {A B : Type} (f : A → result B) xs ys y :
  collect f xs = Ok ys → y ∈ ys → ∃ x, x ∈ xs ∧ f x = Ok y.
Proof.
  revert ys. induction xs as [|x xs IH]; intros ys; cbn [collect].
  - intros [= <-] Hy. by apply elem_of_nil in Hy.
  - destruct (f x) as [y0|] eqn:Hy0; [|done].
    destruct (collect f xs) as [ys'|]; [|done].
    intros [= <-] [->|Hy]%elem_of_cons.
    + exists x. split; [left|done].
    + destruct (IH ys' eq_refl Hy) as (x' & Hx' & Hfx'). exists x'. split; [by right|done].
Qed.

(** ** Numbers *)

(** [math_ceil_div n p] is the ceiling of [n / p]: the least number of
    pages of [p] entries that hold [n] entries. *)
Lemma math_ceil_div_spec (n p : nat) :
  p ≠ 0%nat →
  ∃ k, math_ceil_div n p = Ok k
       ∧ (n ≤ k * p)%nat
       ∧ ∀ k', (n ≤ k' * p)%nat → (k ≤ k')%nat.
Proof.
  intros Hp. unfold math_ceil_div. destruct p as [|p']; [done|].
  set (p := S p') in *. exists ((n + p - 1) / p)%nat. split; [done|].
  pose proof (Nat.div_mod_eq (n + p - 1) p) as Hdiv.
  pose proof (Nat.mod_upper_bound (n + p - 1) p Hp) as Hmod.
  split; [nia|].
  intros k' Hk'. apply Nat.lt_succ_r, Nat.Div0.div_lt_upper_bound. nia.
Qed.

(** ** Strings *)

Example split_example :
  Str.split "  the  quick brown	fox " = ["the"; "quick"; "brown"; "fox"].
Proof. reflexivity. Qed.

Example split_blank_example :
  Str.split "" = [] ∧ Str.split "  	 " = [] ∧ Str.split "dune" = ["dune"].
Proof. repeat split; reflexivity. Qed.

Example lower_example : Str.lower "The Hobbit, 2nd" = "the hobbit, 2nd".
Proof. reflexivity. Qed.

Example count_example :
  Str.count "go gogol " "go" = 3%nat ∧ Str.count "aaa" "aa" = 1%nat
  ∧ Str.count "abc" "" = 4%nat.
Proof. repeat split; reflexivity. Qed.

Example join_example : Str.join " " ["a"; "b"; ""] = "a b ".
Proof. reflexivity. Qed.

Module StrFacts.
Import Str.

Lemma split_space c s : is_space c = true → split (String c s) = split s.
Proof. intros Hc. simpl. by rewrite Hc. Qed.

Lemma split_nonspace_nonempty c s : is_space c = false → split (String c s) ≠ [].
Proof.
  intros Hc. simpl. rewrite Hc. destruct s as [|c' s']; [done|].
  destruct (is_space c'); [done|]. by destruct (split (String c' s')).
Qed.

Lemma split_nonspace c s :
  is_space c = false →
  split (String c s) =
    match s with
    | EmptyString => [String c EmptyString]
    | String c' _ =>
        if is_space c' then String c EmptyString :: split s
        else match split s with
             | w :: ws => String c w :: ws
             | [] => [String c EmptyString]
             end
    end.
Proof. intros Hc. cbn [split]. rewrite Hc. by destruct s. Qed.

Lemma append_empty s : "" +:+ s = s.
Proof. reflexivity. Qed.

Lemma append_String c s s' : String c s +:+ s' = String c (s +:+ s').
Proof. reflexivity. Qed.

(** Splitting commutes with concatenation across a whitespace character. *)
Lemma split_app_space a c b :
  is_space c = true → split (a +:+ String c b) = split a ++ split b.
Proof.
  intros Hc. induction a as [|x a IH].
  - rewrite append_empty. by rewrite split_space.
  - rewrite append_String. destruct (is_space x) eqn:Hx.
    + by rewrite !(split_space x).
    + rewrite !(split_nonspace x) by done.
      destruct a as [|y a'].
      * rewrite append_empty, Hc. by rewrite split_space.
      * rewrite append_String in *. destruct (is_space y) eqn:Hy.
        -- by rewrite IH.
        -- rewrite IH. pose proof (split_nonspace_nonempty y a' Hy).
           by destruct (split (String y a')).
Qed.

Lemma is_space_lower_char c : is_space (lower_char c) = is_space c.
Proof. by destruct c as [[] [] [] [] [] [] [] []]. Qed.

Lemma lower_char_idemp c : lower_char (lower_char c) = lower_char c.
Proof. by destruct c as [[] [] [] [] [] [] [] []]. Qed.

Lemma lower_idemp s : lower (lower s) = lower s.
Proof.
  induction s as [|c s IH]; [done|]. cbn [lower].
  by rewrite lower_char_idemp, IH.
Qed.

(** Lowering commutes with splitting: case folding keeps whitespace. *)
Lemma split_lower s : split (lower s) = map lower (split s).
Proof.
  induction s as [|c s IH]; [done|]. cbn [lower].
  destruct (is_space c) eqn:Hc.
  - rewrite !split_space by (by rewrite ?is_space_lower_char). done.
  - rewrite !split_nonspace by (by rewrite ?is_space_lower_char).
    destruct s as [|c' s']; [done|]. cbn [lower] in *.
    rewrite is_space_lower_char. destruct (is_space c').
    + by rewrite IH.
    + rewrite IH. by destruct (split (String c' s')).
Qed.

(** A token of a lowered string is its own lower-case form. *)
Lemma lower_token_fixed q t : t ∈ split (lower q) → lower t = t.
Proof.
  rewrite split_lower. intros (w & -> & _)%list_elem_of_fmap.
  apply lower_idemp.
Qed.

Lemma join3 (a b c : string) :
  join " " [a; b; c] = a +:+ String " " (b +:+ String " " c).
Proof. reflexivity. Qed.

End StrFacts.

(** ** Documents *)

Module DocumentFacts.
Import Document.

Lemma truediv_Ok a b : b ≠ 0%nat → truediv a b = Ok (INR a / INR b)%R.
Proof. by destruct b. Qed.

(** The tokens of the text are the tokens of the three fields. *)
Lemma init_tokens id t a d :
  Str.split (text (init id t a d)) = Str.split t ++ Str.split a ++ Str.split d.
Proof.
  cbn [init text]. rewrite StrFacts.join3.
  by rewrite !StrFacts.split_app_space.
Qed.

Lemma init_length id t a d :
  length (init id t a d) = List.length (Str.split (text (init id t a d))).
Proof. reflexivity. Qed.

(** The frequency loop on any list of terms: it raises only on a zero
    length, and each term of the list gets its quotient. *)
Lemma frequency_loop (txt : string) (n : nat) (terms : list string)
    (tf0 : gmap string R) :
  (terms ≠ [] → n ≠ 0%nat) →
  ∃ tf,
    for_each
      (fun tf term => v ← truediv (Str.count txt term) n; Ok (<[term := v]> tf))
      terms tf0 = Ok tf
    ∧ ∀ term, tf !! term =
        if decide (term ∈ terms) then Some (INR (Str.count txt term) / INR n)%R
        else tf0 !! term.
Proof.
  revert tf0. induction terms as [|x terms IH]; intros tf0 Hn.
  - exists tf0. split; [done|]. intros term. by rewrite decide_False by set_solver.
  - assert (n ≠ 0%nat) as Hn0 by by apply Hn.
    cbn [for_each]. rewrite truediv_Ok by done. cbn.
    destruct (IH (<[x:=(INR (Str.count txt x) / INR n)%R]> tf0)) as (tf & -> & Htf);
      [done|].
    exists tf. split; [done|]. intros term. rewrite Htf.
    destruct (decide (term ∈ terms)) as [Hin|Hin].
    + by rewrite decide_True by set_solver.
    + destruct (decide (term = x)) as [->|Hne].
      * rewrite decide_True by left. by rewrite lookup_insert_eq.
      * rewrite decide_False by (by intros [?|?]%elem_of_cons).
        by rewrite lookup_insert_ne.
Qed.

(** [compute_term_frequencies] on a fresh document never raises, and
    its table maps exactly the tokens of the text, each to
    [text.count(term) / length]. *)
Lemma compute_term_frequencies_init id t a d index :
  let doc := init id t a d in
  ∃ tf,
    compute_term_frequencies doc index = Ok (set_term_frequencies doc tf)
    ∧ ∀ term, tf !! term =
        if decide (term ∈ Str.split (text doc))
        then Some (INR (Str.count (text doc) term) / INR (length doc))%R
        else None.
Proof.
  intros doc. unfold compute_term_frequencies.
  destruct (frequency_loop (text doc) (length doc)
              (elements (list_to_set (Str.split (text doc)) : gset string))
              (term_frequencies doc)) as (tf & -> & Htf).
  - intros Hne Hlen. apply Hne.
    unfold doc in Hlen. rewrite init_length in Hlen.
    apply nil_length_inv in Hlen. fold doc in Hlen. by rewrite Hlen.
  - exists tf. split; [done|]. intros term. rewrite Htf.
    destruct (decide (term ∈ Str.split (text doc))) as [Hin|Hin].
    + rewrite decide_True; [done|]. by rewrite elem_of_elements, elem_of_list_to_set.
    + rewrite decide_False; [done|]. by rewrite elem_of_elements, elem_of_list_to_set.
Qed.

End DocumentFacts.

(** ** The index store *)

Module DefaultDictFacts.
Import DefaultDict.

Lemma lookup_app k d d' :
  lookup k (d ++ d') = match lookup k d with Some v => Some v | None => lookup k d' end.
Proof.
  induction d as [|[k' v] d IH]; [done|]. cbn [lookup app].
  by destruct (decide (k' = k)).
Qed.

Lemma lookup_None_keys k d : lookup k d = None ↔ k ∉ keys d.
Proof.
  induction d as [|[k' v] d IH]; cbn [lookup keys map fst].
  - split; [|done]. intros _. apply not_elem_of_nil.
  - rewrite not_elem_of_cons. destruct (decide (k' = k)) as [->|Hne].
    + split; [done|]. by intros [? _].
    + rewrite IH. unfold keys. split; [by split|by intros [_ ?]].
Qed.

Lemma lookup_is_Some_keys k d : is_Some (lookup k d) ↔ k ∈ keys d.
Proof.
  destruct (lookup k d) as [v|] eqn:Hk.
  - split; [|by eexists]. intros _.
    destruct (decide (k ∈ keys d)) as [|Hn]; [done|].
    apply lookup_None_keys in Hn. congruence.
  - apply lookup_None_keys in Hk. split; [by intros [? ?]|done].
Qed.

Lemma lookup_Some_elem k v d : lookup k d = Some v → (k, v) ∈ d.
Proof.
  induction d as [|[k' v'] d IH]; cbn [lookup]; [done|].
  destruct (decide (k' = k)) as [->|Hne].
  - intros [= ->]. left.
  - intros H. right. by apply IH.
Qed.

Lemma lookup_middle k v pre post :
  k ∉ keys pre → lookup k (pre ++ (k, v) :: post) = Some v.
Proof.
  intros Hpre. rewrite lookup_app.
  apply lookup_None_keys in Hpre. rewrite Hpre.
  cbn [lookup]. by rewrite decide_True.
Qed.

Lemma keys_append_at k x d : keys (append_at k x d) = keys d.
Proof.
  induction d as [|[k' v] d IH]; [done|]. cbn [append_at].
  destruct (decide (k' = k)); cbn [keys map fst]; [done|].
  f_equal. apply IH.
Qed.

Lemma lookup_append_at k x k' d :
  lookup k' (append_at k x d) =
    if decide (k = k') then (λ v, v ++ [x]) <$> lookup k' d else lookup k' d.
Proof.
  induction d as [|[k0 v] d IH]; cbn [append_at lookup].
  - by destruct (decide (k = k')).
  - destruct (decide (k0 = k)) as [->|Hne]; cbn [lookup].
    + destruct (decide (k = k')); [done|done].
    + destruct (decide (k0 = k')) as [->|Hne'].
      * by rewrite decide_False.
      * apply IH.
Qed.

Lemma keys_getitem_append k x d :
  keys (getitem_append k x d) = if decide (k ∈ keys d) then keys d else keys d ++ [k].
Proof.
  unfold getitem_append, getitem. destruct (lookup k d) as [v|] eqn:Hk.
  - rewrite keys_append_at. rewrite decide_True; [done|].
    destruct (decide (k ∈ keys d)) as [|Hn]; [done|].
    apply lookup_None_keys in Hn. congruence.
  - rewrite keys_append_at. apply lookup_None_keys in Hk.
    rewrite decide_False by done. unfold keys. by rewrite map_app.
Qed.

Lemma getitem_append_NoDup k x d : NoDup (keys d) → NoDup (keys (getitem_append k x d)).
Proof.
  intros Hd. rewrite keys_getitem_append. case_decide; [done|].
  apply NoDup_app. split_and!; [done| |apply NoDup_singleton].
  intros y Hy ->%list_elem_of_singleton. done.
Qed.

Lemma getitem_append_keys_incl k x d k' : k' ∈ keys d → k' ∈ keys (getitem_append k x d).
Proof.
  rewrite keys_getitem_append. case_decide; [done|].
  intros Hk. apply elem_of_app. by left.
Qed.

Lemma getitem_append_key_in k x d : k ∈ keys (getitem_append k x d).
Proof.
  rewrite keys_getitem_append. case_decide; [done|].
  apply elem_of_app. right. left.
Qed.

End DefaultDictFacts.

(** ** The inverted index *)

Module InvertedIndexFacts.
Import InvertedIndex DefaultDictFacts.

Lemma add_tokens_NoDup id tokens field index :
  NoDup (DefaultDict.keys index) → NoDup (DefaultDict.keys (add_tokens_to_index id tokens field index)).
Proof.
  unfold add_tokens_to_index. revert index.
  induction tokens as [|tok tokens IH]; intros index Hd; cbn [foldl]; [done|].
  by apply IH, getitem_append_NoDup.
Qed.

Lemma add_tokens_keys_incl id tokens field index k :
  k ∈ DefaultDict.keys index → k ∈ DefaultDict.keys (add_tokens_to_index id tokens field index).
Proof.
  unfold add_tokens_to_index. revert index.
  induction tokens as [|tok tokens IH]; intros index Hk; cbn [foldl]; [done|].
  by apply IH, getitem_append_keys_incl.
Qed.

Lemma add_tokens_key_in id tokens field index token :
  token ∈ tokens → (token, field) ∈ DefaultDict.keys (add_tokens_to_index id tokens field index).
Proof.
  revert index.
  induction tokens as [|tok tokens IH]; intros index Hin.
  - by apply elem_of_nil in Hin.
  - apply elem_of_cons in Hin as [->|Hin].
    + apply (add_tokens_keys_incl id tokens field), getitem_append_key_in.
    + by apply IH.
Qed.

(** The keys of the index are pairwise distinct. *)
Lemma index_data_NoDup documents index :
  NoDup (DefaultDict.keys index) → NoDup (DefaultDict.keys (index_data documents index)).
Proof.
  unfold index_data. revert index.
  induction documents as [|doc documents IH]; intros index Hd; cbn [foldl]; [done|].
  by apply IH; repeat apply add_tokens_NoDup.
Qed.

Lemma index_data_keys_incl documents index k :
  k ∈ DefaultDict.keys index → k ∈ DefaultDict.keys (index_data documents index).
Proof.
  unfold index_data. revert index.
  induction documents as [|doc documents IH]; intros index Hk; cbn [foldl]; [done|].
  by apply IH; repeat apply add_tokens_keys_incl.
Qed.

(** Every token of every field of every document has an index entry
    under that field. *)
Lemma index_data_key_in documents index doc token :
  doc ∈ documents →
  (token ∈ Str.split (Document.title doc)
     → (token, "title") ∈ DefaultDict.keys (index_data documents index))
  ∧ (token ∈ Str.split (Document.author doc)
     → (token, "author") ∈ DefaultDict.keys (index_data documents index))
  ∧ (token ∈ Str.split (Document.description doc)
     → (token, "description") ∈ DefaultDict.keys (index_data documents index)).
Proof.
  revert index.
  induction documents as [|doc0 documents IH]; intros index Hin.
  - by apply elem_of_nil in Hin.
  - apply elem_of_cons in Hin as [->|Hin]; [|by apply IH].
    unfold index_data. cbn [foldl]. fold (index_data documents).
    split_and!; intros Htok; apply index_data_keys_incl.
    + by apply add_tokens_keys_incl, add_tokens_keys_incl, add_tokens_key_in.
    + by apply add_tokens_keys_incl, add_tokens_key_in.
    + by apply add_tokens_key_in.
Qed.

Lemma index_data_nil index : index_data [] index = index.
Proof. reflexivity. Qed.

End InvertedIndexFacts.

(** ** [InvertedIndex.search] *)

Section IndexSearch.
Import InvertedIndex.

Lemma get_posting k index : DefaultDict.get k [] index = (posting k index, index).
Proof. unfold DefaultDict.get, posting. by destruct (DefaultDict.lookup k index). Qed.

Lemma search_token_eq acc index token :
  search_token (acc, index) token = (acc ++ lookup_any_field index token, index).
Proof. unfold search_token. by rewrite !get_posting. Qed.

Lemma search_loop tokens acc index :
  foldl search_token (acc, index) tokens
  = (acc ++ concat (map (lookup_any_field index) tokens), index).
Proof.
  revert acc. induction tokens as [|token tokens IH]; intros acc;
    cbn [foldl map concat].
  - by rewrite app_nil_r.
  - rewrite search_token_eq, IH. by rewrite <-app_assoc.
Qed.

Lemma search_eq query index :
  search query index
  = (elements (list_to_set
                 (concat (map (lookup_any_field index) (Str.split query))) : gset nat),
     index).
Proof. unfold search. by rewrite search_loop. Qed.

Lemma elem_of_concat {A : Type} (x : A) (ls : list (list A)) :
  x ∈ concat ls ↔ ∃ l, x ∈ l ∧ l ∈ ls.
Proof.
  induction ls as [|l0 ls IH]; cbn [concat].
  - split; [by intros ?%elem_of_nil|]. by intros (l & _ & ?%elem_of_nil).
  - rewrite elem_of_app, IH. split.
    + intros [Hx|(l & Hx & Hl)]; [exists l0|exists l]; split; try done;
        [left|by right].
    + intros (l & Hx & [->|Hl]%elem_of_cons); [by left|right; by exists l].
Qed.

(** A subscript, unlike [get], changes the store on a missing key. *)
Lemma getitem_missing_inserts k index :
  DefaultDict.lookup k index = None →
  (DefaultDict.getitem k index).2 = index ++ [(k, [])]
  ∧ (DefaultDict.getitem k index).2 ≠ index.
Proof.
  intros Hk. unfold DefaultDict.getitem. rewrite Hk. split; [done|].
  cbn. intros Heq. apply (f_equal List.length) in Heq.
  rewrite length_app in Heq. cbn in Heq. lia.
Qed.

(** C6: [InvertedIndex.search] returns a duplicate-free list, and an
    id is in it exactly when some whitespace token of the query has
    the id in its posting list for the title, the author or the
    description field. *)
Theorem search_deduplicates (query : string) (index : DefaultDict.t) :
  let ids := (search query index).1 in
  NoDup ids
  ∧ ∀ id : nat,
      id ∈ ids ↔
      ∃ token field,
        token ∈ Str.split query
        ∧ field ∈ ["title"; "author"; "description"]
        ∧ id ∈ posting (token, field) index.
Proof.
  rewrite search_eq. cbn [fst]. split; [apply NoDup_elements|].
  intros id. rewrite elem_of_elements, elem_of_list_to_set.
  rewrite elem_of_concat. split.
  - intros (ids & Hid & (token & -> & Htoken)%list_elem_of_fmap).
    unfold lookup_any_field in Hid.
    rewrite !elem_of_app in Hid.
    destruct Hid as [Hid|[Hid|Hid]].
    + exists token, "title". split_and!; [done| |done]. set_solver.
    + exists token, "author". split_and!; [done| |done]. set_solver.
    + exists token, "description". split_and!; [done| |done]. set_solver.
  - intros (token & field & Htoken & Hfield & Hid).
    exists (lookup_any_field index token). split.
    + unfold lookup_any_field. rewrite !elem_of_app.
      rewrite !elem_of_cons in Hfield.
      destruct Hfield as [->|[->|[->|Hnil]]]; [by left|by right; left|by right; right|].
      by apply elem_of_nil in Hnil.
    + apply list_elem_of_fmap. by exists token.
Qed.

(** C10: [InvertedIndex.search] leaves the index as it was: the keys
    and the posting lists after the call are those before it, also
    when the query names keys that the index does not hold. *)
Theorem search_preserves_index (query : string) (index : DefaultDict.t) :
  (search query index).2 = index.
Proof. by rewrite search_eq. Qed.

End IndexSearch.

Example search_duplicates_example :
  let index :=
    InvertedIndex.index_data
      [Document.init 0 "dune dune" "dune" ""; Document.init 1 "emma" "" ""]
      InvertedIndex.init in
  lookup_any_field index "dune" = [0; 0; 0]%nat
  ∧ (InvertedIndex.search "dune emma missing" index).1 ≡ₚ [0; 1]%nat.
Proof.
  split; [vm_compute; reflexivity|].
  assert ((InvertedIndex.search "dune emma missing"
             (InvertedIndex.index_data
                [Document.init 0 "dune dune" "dune" ""; Document.init 1 "emma" "" ""]
                InvertedIndex.init)).1 = [1; 0]%nat) as -> by (vm_compute; reflexivity).
  apply Permutation_swap.
Qed.

(** ** The IDF table *)

Module IdfFacts.
Import SearchEngine DefaultDictFacts.

Lemma math_log_Ok (n d : nat) :
  n ≠ 0%nat → d ≠ 0%nat → math_log (INR n / INR d) = Ok (ln (INR n / INR d)).
Proof.
  intros Hn Hd. unfold math_log. rewrite decide_True; [done|].
  apply Rdiv_lt_0_compat; apply lt_0_INR; lia.
Qed.

Lemma idf_step_Ok num_docs idf term field doc_list :
  num_docs ≠ 0%nat →
  idf_step num_docs idf ((term, field), doc_list)
  = Ok (<[Str.lower term := ln (INR num_docs / INR (1 + length doc_list))]> idf).
Proof.
  intros Hn. unfold idf_step. rewrite DocumentFacts.truediv_Ok by lia.
  rewrite bind_Ok, math_log_Ok by lia. by rewrite bind_Ok.
Qed.

(** The loop over any list of index entries: it does not raise once
    there is a document, it keeps the keys it starts with, every entry
    leaves a key, and the value of a key comes from the last entry that
    wrote it. *)
Lemma idf_loop (num_docs : nat) (items : list (DefaultDict.key * list nat))
    (idf0 : gmap string R) :
  (items ≠ [] → num_docs ≠ 0%nat) →
  ∃ idf,
    for_each (idf_step num_docs) items idf0 = Ok idf
    ∧ (∀ key, is_Some (idf0 !! key) → is_Some (idf !! key))
    ∧ (∀ term field doc_list,
         ((term, field), doc_list) ∈ items → is_Some (idf !! Str.lower term))
    ∧ (∀ key value, idf !! key = Some value →
         (idf0 !! key = Some value
          ∧ ∀ term field doc_list,
              ((term, field), doc_list) ∈ items → Str.lower term ≠ key)
         ∨ ∃ pre term field doc_list post,
             items = pre ++ ((term, field), doc_list) :: post
             ∧ Str.lower term = key
             ∧ (∀ term' field' doc_list',
                  ((term', field'), doc_list') ∈ post → Str.lower term' ≠ key)
             ∧ value = ln (INR num_docs / INR (1 + length doc_list))).
Proof.
  revert idf0. induction items as [|[[t f] l] items IH]; intros idf0 Hn.
  - exists idf0. split_and!; [done|done| |].
    + by intros ??? ?%elem_of_nil.
    + intros key value Hkey. left. split; [done|]. by intros ??? ?%elem_of_nil.
  - assert (num_docs ≠ 0%nat) as Hn0 by by apply Hn.
    cbn [for_each]. rewrite idf_step_Ok, bind_Ok by done.
    set (v := ln (INR num_docs / INR (1 + length l))).
    destruct (IH (<[Str.lower t := v]> idf0)) as (idf & -> & Hmono & Hkeys & Hlast);
      [done|].
    exists idf. split_and!; [done| | |].
    + intros key Hkey. apply Hmono.
      destruct (decide (Str.lower t = key)) as [->|Hne].
      * rewrite lookup_insert_eq. by eexists.
      * by rewrite lookup_insert_ne.
    + intros term field doc_list [[= -> -> ->]|Hin]%elem_of_cons; [|by eapply Hkeys].
      apply Hmono. rewrite lookup_insert_eq. by eexists.
    + intros key value Hkey.
      destruct (Hlast key value Hkey)
        as [[Hfirst Hrest]|(pre & t' & f' & l' & post & -> & Hlow & Hpost & Hval)].
      * destruct (decide (Str.lower t = key)) as [<-|Hne].
        -- rewrite lookup_insert_eq in Hfirst. injection Hfirst as <-.
           right. by exists [], t, f, l, items.
        -- rewrite lookup_insert_ne in Hfirst by done. left. split; [done|].
           intros term field doc_list [[= -> -> ->]|Hin]%elem_of_cons; [done|].
           by eapply Hrest.
      * right. exists (((t, f), l) :: pre), t', f', l', post. by split_and!.
Qed.

(** Construction never raises; the engine holds the documents it was
    given and the index built from them. *)
Lemma init_Ok (docs : list Document.t) :
  ∃ engine,
    init docs = Ok engine
    ∧ documents engine = docs
    ∧ index engine = InvertedIndex.index_data docs InvertedIndex.init
    ∧ for_each (idf_step (length docs)) (DefaultDict.items (index engine)) ∅
      = Ok (idf_scores engine).
Proof.
  unfold init, compute_idf_scores.
  destruct (idf_loop (length docs)
              (DefaultDict.items (InvertedIndex.index_data docs InvertedIndex.init)) ∅)
    as (idf & Hidf & _).
  - intros Hitems ->%nil_length_inv. by apply Hitems.
  - rewrite Hidf, bind_Ok. by eexists.
Qed.

(** Every key of the index has its lower-case term in the IDF table. *)
Lemma idf_scores_key (docs : list Document.t) engine term field :
  init docs = Ok engine →
  (term, field) ∈ DefaultDict.keys (index engine) →
  is_Some (idf_scores engine !! Str.lower term).
Proof.
  intros Hinit Hkey.
  destruct (init_Ok docs) as (engine' & Hinit' & Hdocs & Hindex & Hloop).
  assert (engine' = engine) as -> by congruence.
  destruct (idf_loop (length docs) (DefaultDict.items (index engine)) ∅)
    as (idf & Hidf & _ & Hkeys & _).
  - intros Hitems ->%nil_length_inv. apply Hitems. by rewrite Hindex.
  - assert (idf = idf_scores engine) as -> by congruence.
    unfold DefaultDict.keys in Hkey. apply list_elem_of_fmap in Hkey as ([[t f] l] & [= -> ->] & Hin).
    by eapply Hkeys.
Qed.

End IdfFacts.

(** The table after the loop of [compute_idf_scores], key by key: the
    value of the last item that writes the key, or what was there. *)
Lemma idf_loop_last (num_docs : nat) (items : list (DefaultDict.key * list nat))
    (idf0 idf : gmap string R) (term : string) :
  for_each (SearchEngine.idf_step num_docs) items idf0 = Ok idf →
  num_docs ≠ 0%nat →
  idf !! term
  = match last_entry term items with
    | Some item => Some (ln (INR num_docs / INR (1 + length item.2)))
    | None => idf0 !! term
    end.
Proof.
  intros Hloop Hn. revert idf0 Hloop.
  induction items as [|[[t f] l] items IH]; intros idf0; cbn [for_each last_entry].
  - by intros [= <-].
  - rewrite IdfFacts.idf_step_Ok, bind_Ok by done. intros Hloop.
    rewrite (IH _ Hloop). destruct (last_entry term items); [done|].
    cbn [fst snd]. case_decide as Hterm.
    + subst term. by rewrite lookup_insert_eq.
    + by rewrite lookup_insert_ne.
Qed.

(** [last_entry] finds the last item that writes the term. *)
Lemma last_entry_Some term items item :
  last_entry term items = Some item →
  ∃ pre post,
    items = pre ++ item :: post
    ∧ Str.lower item.1.1 = term
    ∧ ∀ later, later ∈ post → Str.lower later.1.1 ≠ term.
Proof.
  revert item. induction items as [|first items IH]; intros item; cbn [last_entry];
    [done|].
  destruct (last_entry term items) as [later|] eqn:Hlater.
  - intros [= <-]. destruct (IH later eq_refl) as (pre & post & -> & Hterm & Hpost).
    by exists (first :: pre), post.
  - case_decide as Hterm; [|done]. intros [= <-].
    exists [], items. split_and!; [done|done|].
    intros later Hin Hlow.
    assert (∀ rest, last_entry term rest = None →
              ∀ e, e ∈ rest → Str.lower e.1.1 ≠ term) as Hnone.
    { clear. induction rest as [|e0 rest IHrest]; cbn [last_entry].
      - by intros _ e ?%elem_of_nil.
      - destruct (last_entry term rest); [done|]. case_decide; [done|].
        intros _ e [->|He]%elem_of_cons; [done|]. by apply IHrest. }
    by apply (Hnone items Hlater later).
Qed.

Lemma last_entry_is_Some term items item :
  item ∈ items → Str.lower item.1.1 = term → is_Some (last_entry term items).
Proof.
  induction items as [|first items IH]; [by intros ?%elem_of_nil|].
  cbn [last_entry]. intros [->|Hin]%elem_of_cons Hterm.
  - destruct (last_entry term items); [by eexists|]. rewrite decide_True by done.
    by eexists.
  - destruct (IH Hin Hterm) as [later ->]. by eexists.
Qed.

(** C2: construction succeeds and the engine holds the index built from
    the documents.  The IDF table has a value for a term exactly when
    an entry of the index carries the term (the table is keyed by the
    term's lower-case form, which is the term itself for normalised
    tokens), and then exactly the one value [ln(N / (1 + df))], where
    [N] is the number of documents and [df] the length of the posting
    list of the index entry [(term, field)] that the loop processed
    last for that term: no later entry of the index writes the term,
    so the last field processed wins. *)
Theorem idf_scores_last_entry (docs : list Document.t) :
  ∃ engine,
    SearchEngine.init docs = Ok engine
    ∧ SearchEngine.documents engine = docs
    ∧ SearchEngine.index engine = InvertedIndex.index_data docs InvertedIndex.init
    ∧ (∀ term : string,
         SearchEngine.idf_scores engine !! term
         = (λ item, ln (INR (length docs) / INR (1 + length item.2)))
             <$> last_entry term (DefaultDict.items (SearchEngine.index engine)))
    ∧ (∀ t field doc_list,
         ((t, field), doc_list) ∈ DefaultDict.items (SearchEngine.index engine) →
         ∃ item,
           last_entry (Str.lower t) (DefaultDict.items (SearchEngine.index engine))
           = Some item
           ∧ SearchEngine.idf_scores engine !! Str.lower t
             = Some (ln (INR (length docs) / INR (1 + length item.2))))
    ∧ (∀ term item,
         last_entry term (DefaultDict.items (SearchEngine.index engine)) = Some item →
         ∃ pre t field doc_list post,
           item = ((t, field), doc_list)
           ∧ DefaultDict.items (SearchEngine.index engine)
             = pre ++ ((t, field), doc_list) :: post
           ∧ Str.lower t = term
           ∧ DefaultDict.lookup (t, field) (SearchEngine.index engine) = Some doc_list
           ∧ (∀ t' field' doc_list',
                ((t', field'), doc_list') ∈ post → Str.lower t' ≠ term))
    ∧ ∀ (term : string) (value : R),
        SearchEngine.idf_scores engine !! term = Some value →
        ∃ pre t field doc_list post,
          DefaultDict.items (SearchEngine.index engine)
            = pre ++ ((t, field), doc_list) :: post
          ∧ Str.lower t = term
          ∧ DefaultDict.lookup (t, field) (SearchEngine.index engine) = Some doc_list
          ∧ (∀ t' field' doc_list',
               ((t', field'), doc_list') ∈ post → Str.lower t' ≠ term)
          ∧ value = ln (INR (length docs) / INR (1 + length doc_list)).
Proof.
  destruct (IdfFacts.init_Ok docs) as (engine & Hinit & Hdocs & Hindex & Hloop).
  exists engine. split; [done|]. split; [done|]. split; [done|].
  set (items := DefaultDict.items (SearchEngine.index engine)) in *.
  assert (∀ term,
            SearchEngine.idf_scores engine !! term
            = (λ item, ln (INR (length docs) / INR (1 + length item.2)))
                <$> last_entry term items) as Htable.
  { intros term. destruct (decide (length docs = 0%nat)) as [Hzero|Hn].
    - assert (items = []) as Hitems.
      { apply nil_length_inv in Hzero. unfold items. by rewrite Hindex, Hzero. }
      rewrite Hitems in Hloop |- *. cbn [for_each] in Hloop.
      injection Hloop as <-. by rewrite lookup_empty.
    - rewrite (idf_loop_last _ _ _ _ term Hloop Hn).
      destruct (last_entry term items); [done|]. by rewrite lookup_empty. }
  assert (∀ term item,
            last_entry term items = Some item →
            ∃ pre t field doc_list post,
              item = ((t, field), doc_list)
              ∧ items = pre ++ ((t, field), doc_list) :: post
              ∧ Str.lower t = term
              ∧ DefaultDict.lookup (t, field) (SearchEngine.index engine) = Some doc_list
              ∧ (∀ t' field' doc_list',
                   ((t', field'), doc_list') ∈ post → Str.lower t' ≠ term)) as Hlast.
  { intros term [[t f] l] (pre & post & Hitems & Hterm & Hpost)%last_entry_Some.
    exists pre, t, f, l, post. split_and!; [done|done|done| |].
    - unfold items, DefaultDict.items in Hitems. rewrite Hitems.
      apply DefaultDictFacts.lookup_middle.
      assert (NoDup (DefaultDict.keys (SearchEngine.index engine))) as Hnodup.
      { rewrite Hindex. apply InvertedIndexFacts.index_data_NoDup. constructor. }
      rewrite Hitems in Hnodup. unfold DefaultDict.keys in *.
      rewrite map_app in Hnodup. apply NoDup_app in Hnodup as (_ & Hdisj & _).
      intros Hin. apply (Hdisj _ Hin). cbn. left.
    - intros t' f' l' Hin. by apply (Hpost ((t', f'), l')). }
  split; [done|]. split; [|split; [done|]].
  - intros t field doc_list Hin.
    destruct (last_entry_is_Some (Str.lower t) items ((t, field), doc_list) Hin eq_refl)
      as [item Hitem].
    exists item. split; [done|]. by rewrite Htable, Hitem.
  - intros term value Hvalue. rewrite Htable in Hvalue.
    destruct (last_entry term items) as [item|] eqn:Hitem; [|done].
    injection Hvalue as <-.
    destruct (Hlast term item Hitem)
      as (pre & t & f & l & post & -> & Hitems & Hterm & Hlookup & Hpost).
    by exists pre, t, f, l, post.
Qed.

Example idf_scores_example :
  ∃ engine,
    SearchEngine.init
      [Document.init 0 "dune" "herbert" ""; Document.init 1 "herbert dune" "dune" ""]
    = Ok engine
    ∧ SearchEngine.index engine
      = [(("dune", "title"), [0; 1]); (("herbert", "author"), [0]);
         (("herbert", "title"), [1]); (("dune", "author"), [1])]%nat.
Proof.
  destruct (IdfFacts.init_Ok
              [Document.init 0 "dune" "herbert" ""; Document.init 1 "herbert dune" "dune" ""])
    as (engine & Hinit & _ & Hindex & _).
  exists engine. split; [done|]. rewrite Hindex. reflexivity.
Qed.

(** ** The stable descending sort *)

Section StableSortFacts.
Context {A : Type} (key : A → R).

Lemma insert_desc_perm x l : insert_desc key x l ≡ₚ x :: l.
Proof.
  induction l as [|y l IH]; cbn [insert_desc]; [done|].
  case_decide; [|done]. rewrite IH. apply Permutation_swap.
Qed.

Lemma sort_desc_perm l : sort_desc key l ≡ₚ l.
Proof.
  induction l as [|x l IH]; [done|].
  cbn [sort_desc foldr]. fold (sort_desc key l).
  by rewrite insert_desc_perm, IH.
Qed.

Lemma insert_desc_sorted (before : A → A → Prop) x l :
  StronglySorted (desc_then key before) l →
  Forall (before x) l →
  StronglySorted (desc_then key before) (insert_desc key x l).
Proof.
  induction l as [|y l IH]; intros Hsorted Hbefore; cbn [insert_desc].
  - repeat constructor.
  - apply StronglySorted_inv in Hsorted as [Hsorted Hy].
    apply Forall_cons in Hbefore as [Hxy Hbefore].
    case_decide as Hlt.
    + constructor; [by apply IH|].
      eapply Permutation_Forall; [symmetry; apply insert_desc_perm|].
      constructor; [|done]. left. lra.
    + constructor; [by constructor|].
      constructor.
      * destruct (Rtotal_order (key x) (key y)) as [?|[?|?]];
          [done|by right|by left].
      * rewrite Forall_forall in Hy, Hbefore. apply Forall_forall.
        intros z Hz. specialize (Hy z Hz). specialize (Hbefore z Hz).
        destruct Hy as [Hgt|[Heq _]].
        -- left. lra.
        -- destruct (Rtotal_order (key x) (key z)) as [?|[?|?]];
             [lra|by right|by left].
Qed.

(** Stability: an input in [before] order comes out sorted by key,
    descending, with equal keys still in [before] order. *)
Lemma sort_desc_sorted (before : A → A → Prop) l :
  StronglySorted before l → StronglySorted (desc_then key before) (sort_desc key l).
Proof.
  induction l as [|x l IH]; intros Hsorted; [constructor|].
  apply StronglySorted_inv in Hsorted as [Hsorted Hx].
  cbn [sort_desc foldr]. fold (sort_desc key l).
  apply insert_desc_sorted; [by apply IH|].
  eapply Permutation_Forall; [symmetry; apply sort_desc_perm|done].
Qed.

(** A list whose keys never increase is left as it is. *)
Lemma sort_desc_sorted_id l :
  StronglySorted (λ a b, key a >= key b)%R l → sort_desc key l = l.
Proof.
  induction l as [|x l IH]; intros Hsorted; [done|].
  apply StronglySorted_inv in Hsorted as [Hsorted Hx].
  cbn [sort_desc foldr]. fold (sort_desc key l). rewrite IH by done.
  destruct l as [|y l]; [done|]. cbn [insert_desc].
  apply Forall_cons in Hx as [Hxy _].
  rewrite decide_False; [done|lra].
Qed.

Lemma sort_desc_length l : length (sort_desc key l) = length l.
Proof. apply Permutation_length, sort_desc_perm. Qed.
End StableSortFacts.

(** ** Scoring *)

Module SearchFacts.
Import SearchEngine.

(** What the start-up loop makes of one record. *)
Lemma prepare_Ok (book_id : nat) (book : Book) :
  let doc0 := Document.init book_id (book_title book) (book_author book)
                (book_description book) in
  ∃ tf,
    prepare (book_id, book) = Ok (Document.set_term_frequencies doc0 tf)
    ∧ ∀ term, tf !! term =
        if decide (term ∈ Str.split (Document.text doc0))
        then Some (INR (Str.count (Document.text doc0) term)
                   / INR (Document.length doc0))%R
        else None.
Proof. apply DocumentFacts.compute_term_frequencies_init. Qed.

Lemma dict_set_elem {V : Type} (k : string) (v : V) d e :
  e ∈ dict_set k v d → e = (k, v) ∨ e ∈ d.
Proof.
  induction d as [|[k' v'] d IH]; cbn [dict_set].
  - intros ->%list_elem_of_singleton. by left.
  - case_decide.
    + intros [->|He]%elem_of_cons; [by left|]. right. by right.
    + intros [->|He]%elem_of_cons; [right; left|].
      destruct (IH He) as [->|?]; [by left|]. right. by right.
Qed.

(** The keys of the query vector are query terms. *)
Lemma query_vector_keys (query_terms : list string) term n :
  (term, n) ∈ query_vector_of query_terms → term ∈ query_terms.
Proof.
  unfold query_vector_of.
  assert (∀ terms acc,
            (∀ t m, (t, m) ∈ acc → t ∈ query_terms) →
            (∀ t, t ∈ terms → t ∈ query_terms) →
            (term, n) ∈ foldl (λ qv t, dict_set t (list_count t query_terms) qv)
                          acc terms →
            term ∈ query_terms) as Hgen.
  { induction terms as [|t terms IH]; intros acc Hacc Hterms; cbn [foldl].
    - apply Hacc.
    - apply IH.
      + intros t' m [[= -> ->]|Hin]%dict_set_elem; [apply Hterms; left|by eapply Hacc].
      + intros t' Ht'. apply Hterms. by right. }
  apply Hgen; [|done]. by intros ?? ?%elem_of_nil.
Qed.

Lemma query_vector_nil : query_vector_of [] = [].
Proof. reflexivity. Qed.

(** The score loop does not raise when every query term the document
    holds has an IDF value. *)
Lemma score_document_Ok (self : t) query_vector doc :
  (∀ term n, (term, n) ∈ query_vector →
     is_Some (Document.term_frequencies doc !! term) →
     is_Some (idf_scores self !! term)) →
  ∃ score, score_document self query_vector doc = Ok score.
Proof.
  unfold score_document. generalize 0%R.
  induction query_vector as [|[term n] qv IH]; intros s Hidf; cbn [for_each].
  - by eexists.
  - destruct (Document.term_frequencies doc !! term) as [tf|] eqn:Htf.
    + destruct (Hidf term n) as [idf ->]; [left|by eexists|].
      rewrite bind_Ok. apply IH. intros t' n' Hin. apply (Hidf t' n'). by right.
    + rewrite bind_Ok. apply IH. intros t' n' Hin. apply (Hidf t' n'). by right.
Qed.

(** A document without term frequencies scores 0, whatever the query
    and the IDF table. *)
Lemma score_document_empty (self : t) query_vector doc :
  Document.term_frequencies doc = ∅ →
  score_document self query_vector doc = Ok 0%R.
Proof.
  intros Htf. unfold score_document. generalize 0%R.
  induction query_vector as [|[term n] qv IH]; intros s; cbn [for_each]; [done|].
  assert (Document.term_frequencies doc !! term = None) as ->
    by by rewrite Htf, lookup_empty.
  rewrite bind_Ok. apply IH.
Qed.

Lemma score_document_no_terms (self : t) doc : score_document self [] doc = Ok 0%R.
Proof. reflexivity. Qed.

(** [search] returns when no IDF lookup can fail: the pairs of the
    documents, in order, stably sorted. *)
Lemma search_Ok (self : t) (query : string) :
  (∀ doc term, doc ∈ documents self → term ∈ Str.split (Str.lower query) →
     is_Some (Document.term_frequencies doc !! term) →
     is_Some (idf_scores self !! term)) →
  search self query
  = Ok (sort_desc snd
          (map (λ doc, (Document.doc_id doc, score_of self query doc)) (documents self))).
Proof.
  intros Hidf. unfold search.
  rewrite (collect_total _ (λ doc, (Document.doc_id doc, score_of self query doc))).
  - by rewrite bind_Ok.
  - intros doc Hdoc. unfold score_of.
    destruct (score_document_Ok self (query_vector_of (Str.split (Str.lower query))) doc)
      as [score ->]; [|done].
    intros term n Hin%query_vector_keys. by apply Hidf.
Qed.

End SearchFacts.

(** ** The engine of a corpus *)

(** The documents of any list of numbered records: none raises, and a
    term with a frequency in a document is a token of one of its
    fields. *)
Lemma prepare_all (entries : list (nat * Book)) :
  ∃ docs,
    collect prepare entries = Ok docs
    ∧ length docs = length entries
    ∧ (∀ i doc, docs !! i = Some doc →
         ∃ book_id book, entries !! i = Some (book_id, book)
                         ∧ prepare (book_id, book) = Ok doc)
    ∧ (∀ doc term, doc ∈ docs →
         is_Some (Document.term_frequencies doc !! term) →
         term ∈ Str.split (Document.text doc)
         ∧ (term ∈ Str.split (Document.title doc)
            ∨ term ∈ Str.split (Document.author doc)
            ∨ term ∈ Str.split (Document.description doc))).
Proof.
  destruct (collect_all_Ok prepare entries) as [docs Hdocs].
  { intros [book_id book] _. destruct (SearchFacts.prepare_Ok book_id book) as (tf & -> & _).
    by eexists. }
  exists docs. split_and!; [done|by eapply collect_Ok_length| |].
  - intros i doc Hi.
    destruct (entries !! i) as [[book_id book]|] eqn:He.
    + destruct (collect_Ok_lookup _ _ _ _ _ Hdocs He) as (doc' & Hdoc' & Hprep).
      exists book_id, book. split; [done|]. congruence.
    + apply lookup_lt_Some in Hi. apply lookup_ge_None in He.
      apply collect_Ok_length in Hdocs. lia.
  - intros doc term Hdoc Hterm.
    destruct (collect_Ok_elem _ _ _ _ Hdocs Hdoc) as ([book_id book] & _ & Hprep).
    destruct (SearchFacts.prepare_Ok book_id book) as (tf & Hprep' & Htf).
    rewrite Hprep in Hprep'. injection Hprep' as ->.
    cbn [Document.set_term_frequencies Document.term_frequencies Document.text
         Document.title Document.author Document.description] in *.
    rewrite Htf in Hterm. case_decide as Hin; [|by destruct Hterm].
    split; [done|].
    rewrite DocumentFacts.init_tokens in Hin.
    rewrite !elem_of_app in Hin. done.
Qed.

(** The chain behind the guard of [search], for the engine of any list
    of numbered records. *)
Lemma idf_lookup_chain (entries : list (nat * Book)) :
  ∃ docs engine,
    collect prepare entries = Ok docs
    ∧ SearchEngine.init docs = Ok engine
    ∧ SearchEngine.documents engine = docs
    ∧ ∀ query doc term,
        doc ∈ docs →
        term ∈ Str.split (Str.lower query) →
        is_Some (Document.term_frequencies doc !! term) →
        is_Some (SearchEngine.idf_scores engine !! term).
Proof.
  destruct (prepare_all entries) as (docs & Hdocs & _ & _ & Htokens).
  destruct (IdfFacts.init_Ok docs) as (engine & Hinit & Hdocuments & Hindex & _).
  exists docs, engine. split_and!; [done|done|done|].
  intros query doc term Hdoc Hterm Htf.
  destruct (Htokens doc term Hdoc Htf) as [_ Hfield].
  pose proof (InvertedIndexFacts.index_data_key_in docs InvertedIndex.init doc term Hdoc)
    as (Htitle & Hauthor & Hdescription).
  rewrite <-Hindex in Htitle, Hauthor, Hdescription.
  rewrite <-(StrFacts.lower_token_fixed _ _ Hterm).
  destruct Hfield as [?|[?|?]]; eapply IdfFacts.idf_scores_key; eauto.
Qed.

(** C9: in an engine built from documents whose term frequencies were
    computed from their own text, the lookup [self.idf_scores[term]] of
    [search] never raises: a lowered query term that passes the guard
    [term in doc.term_frequencies] is a token of the document's text,
    so it has an index entry under some field, and its lower-case form,
    which is the term itself, is a key of the IDF table.  Hence [search]
    returns. *)
Theorem idf_lookup_never_fails (entries : list (nat * Book)) (query : string) :
  ∃ docs engine,
    collect prepare entries = Ok docs
    ∧ SearchEngine.init docs = Ok engine
    ∧ (∀ doc term,
         doc ∈ docs →
         term ∈ Str.split (Str.lower query) →
         is_Some (Document.term_frequencies doc !! term) →
         term ∈ Str.split (Document.text doc)
         ∧ (∃ field,
              is_Some (DefaultDict.lookup (term, field) (SearchEngine.index engine)))
         ∧ Str.lower term = term
         ∧ is_Some (SearchEngine.idf_scores engine !! term))
    ∧ ∃ ranking, SearchEngine.search engine query = Ok ranking.
Proof.
  destruct (prepare_all entries) as (docs & Hdocs & _ & _ & Htokens).
  destruct (idf_lookup_chain entries)
    as (docs' & engine & Hdocs' & Hinit & Hdocuments & Hchain).
  assert (docs' = docs) as -> by congruence.
  pose proof (IdfFacts.init_Ok docs) as (engine' & Hinit' & _ & Hindex & _).
  assert (engine' = engine) as -> by congruence.
  exists docs, engine. split; [done|]. split; [done|]. split.
  - intros doc term Hdoc Hterm Htf.
    destruct (Htokens doc term Hdoc Htf) as [Htext Hfield].
    pose proof (InvertedIndexFacts.index_data_key_in docs InvertedIndex.init doc term Hdoc)
      as (Htitle & Hauthor & Hdescription).
    rewrite <-Hindex in Htitle, Hauthor, Hdescription.
    split_and!; [done| |by eapply StrFacts.lower_token_fixed|by eapply Hchain].
    destruct Hfield as [?|[?|?]]; eexists;
      apply DefaultDictFacts.lookup_is_Some_keys; eauto.
  - eexists. apply SearchFacts.search_Ok. rewrite Hdocuments.
    intros doc term. apply Hchain.
Qed.

Lemma enumerate_lookup {A : Type} (xs : list A) i id x :
  enumerate xs !! i = Some (id, x) ↔ id = i ∧ xs !! i = Some x.
Proof.
  unfold enumerate. rewrite lookup_zip_with_Some. split.
  - intros (id' & x' & [= -> ->] & Hid%lookup_seq & Hx). by destruct Hid as [-> _].
  - intros [-> Hx]. exists i, x. split_and!; [done| |done].
    apply lookup_seq. split; [done|]. by eapply lookup_lt_Some.
Qed.

Lemma enumerate_length {A : Type} (xs : list A) : length (enumerate xs) = length xs.
Proof. unfold enumerate. rewrite length_zip_with, length_seq. lia. Qed.

(** The engine of the program: start-up never raises, the documents are
    numbered by position, and every query returns the stably sorted
    pairs of the documents. *)
Lemma load_engine_Ok (books : list Book) :
  ∃ docs engine,
    load_documents books = Ok docs
    ∧ load_engine books = Ok engine
    ∧ SearchEngine.documents engine = docs
    ∧ length docs = length books
    ∧ map Document.doc_id docs = seq 0 (length books)
    ∧ (∀ i doc, docs !! i = Some doc →
         ∃ book, books !! i = Some book ∧ prepare (i, book) = Ok doc)
    ∧ ∀ query,
        SearchEngine.search engine query
        = Ok (sort_desc snd
                (map (λ doc, (Document.doc_id doc, SearchEngine.score_of engine query doc))
                   docs)).
Proof.
  destruct (prepare_all (enumerate books)) as (docs & Hdocs & Hlen & Hlookup & Htokens).
  destruct (idf_lookup_chain (enumerate books)) as (docs' & engine & Hdocs' & Hinit & Hdocuments & Hchain).
  assert (docs' = docs) as -> by congruence.
  rewrite enumerate_length in Hlen.
  assert (∀ i doc, docs !! i = Some doc →
            ∃ book, books !! i = Some book ∧ prepare (i, book) = Ok doc) as Hbook.
  { intros i doc Hi. destruct (Hlookup i doc Hi) as (book_id & book & He & Hprep).
    apply enumerate_lookup in He as [-> Hb]. by exists book. }
  exists docs, engine. unfold load_engine, load_documents. rewrite Hdocs, bind_Ok.
  split_and!; [done|done|done|done| |done|].
  - apply list_eq. intros i. rewrite list_lookup_fmap.
    destruct (docs !! i) as [doc|] eqn:Hi; cbn.
    + destruct (Hbook i doc Hi) as (book & Hb & Hprep).
      destruct (SearchFacts.prepare_Ok i book) as (tf & Hprep' & _).
      rewrite Hprep in Hprep'. injection Hprep' as ->. cbn.
      symmetry. apply lookup_seq. split; [done|].
      apply lookup_lt_Some in Hi. lia.
    + symmetry. apply lookup_ge_None. rewrite length_seq.
      apply lookup_ge_None in Hi. lia.
  - intros query. rewrite <-Hdocuments. apply SearchFacts.search_Ok.
    rewrite Hdocuments. apply Hchain.
Qed.

Lemma seq_StronglySorted (a n : nat) : StronglySorted lt (seq a n).
Proof.
  revert a. induction n as [|n IH]; intros a; cbn [seq]; constructor; [apply IH|].
  apply Forall_forall. intros b Hb%elem_of_seq. lia.
Qed.

Lemma StronglySorted_map {A B : Type} (f : A → B) (rel : B → B → Prop) (l : list A) :
  StronglySorted rel (map f l) → StronglySorted (λ a b, rel (f a) (f b)) l.
Proof.
  induction l as [|x l IH]; cbn [map]; intros Hsorted; [constructor|].
  apply StronglySorted_inv in Hsorted as [Hsorted Hx].
  constructor; [by apply IH|].
  rewrite Forall_forall in Hx. apply Forall_forall. intros y Hy.
  apply Hx. by apply (list_elem_of_fmap_2 f).
Qed.

(** The score loop, when it returns, returns the sum of the
    contributions of the entries of the query vector. *)
Lemma score_document_sum (self : SearchEngine.t) query_vector doc score :
  SearchEngine.score_document self query_vector doc = Ok score →
  score = score_sum self query_vector doc.
Proof.
  unfold SearchEngine.score_document, score_sum. generalize 0%R.
  induction query_vector as [|[term n] qv IH]; intros s; cbn [for_each foldl].
  - by intros [= <-].
  - unfold contribution at 2. cbn [fst snd].
    destruct (Document.term_frequencies doc !! term) as [tf|].
    + destruct (SearchEngine.idf_scores self !! term) as [idf|]; [|done].
      rewrite bind_Ok. apply IH.
    + rewrite bind_Ok, Rplus_0_r. apply IH.
Qed.

(** In the program's engine the score loop returns for every document
    and every query. *)
Lemma load_engine_scores (books : list Book) :
  ∃ docs engine,
    load_documents books = Ok docs
    ∧ load_engine books = Ok engine
    ∧ ∀ query doc,
        doc ∈ docs →
        SearchEngine.score_document engine
          (SearchEngine.query_vector_of (Str.split (Str.lower query))) doc
        = Ok (score_sum engine
                (SearchEngine.query_vector_of (Str.split (Str.lower query))) doc).
Proof.
  destruct (idf_lookup_chain (enumerate books))
    as (docs & engine & Hdocs & Hinit & Hdocuments & Hchain).
  exists docs, engine. split; [done|]. split.
  { unfold load_engine, load_documents. by rewrite Hdocs, bind_Ok. }
  intros query doc Hdoc.
  destruct (SearchFacts.score_document_Ok engine
              (SearchEngine.query_vector_of (Str.split (Str.lower query))) doc)
    as [score Hscore].
  { intros term n Hterm%SearchFacts.query_vector_keys. by apply (Hchain query). }
  rewrite Hscore. f_equal. by apply score_document_sum.
Qed.

(** C3: for the engine of any corpus and any query, [search] returns
    one pair per document: the ids are those of the documents, each
    once, and the pair of a document carries that document's score, the
    sum of [tf * idf * (1 + count)] over the query terms it holds.  The
    pairs are sorted by score, descending, and pairs of equal score are
    in ascending order of id; for the empty query every score is 0 and
    the documents come in ascending order of id. *)
Theorem search_ranking (books : list Book) (query : string) :
  ∃ engine ranking,
    load_engine books = Ok engine
    ∧ SearchEngine.search engine query = Ok ranking
    ∧ load_documents books = Ok (SearchEngine.documents engine)
    ∧ length ranking = length (SearchEngine.documents engine)
    ∧ map fst ranking ≡ₚ map Document.doc_id (SearchEngine.documents engine)
    ∧ map fst ranking ≡ₚ seq 0 (length books)
    ∧ ranking
      ≡ₚ map (λ doc,
                (Document.doc_id doc,
                 score_sum engine
                   (SearchEngine.query_vector_of (Str.split (Str.lower query))) doc))
           (SearchEngine.documents engine)
    ∧ (∀ i score,
         (i, score) ∈ ranking
         ↔ ∃ doc,
             SearchEngine.documents engine !! i = Some doc
             ∧ Document.doc_id doc = i
             ∧ SearchEngine.score_document engine
                 (SearchEngine.query_vector_of (Str.split (Str.lower query))) doc
               = Ok score
             ∧ score
               = score_sum engine
                   (SearchEngine.query_vector_of (Str.split (Str.lower query))) doc)
    ∧ StronglySorted
        (λ a b, (a.2 > b.2)%R ∨ (a.2 = b.2 ∧ (a.1 < b.1)%nat)) ranking
    ∧ (query = "" → ranking = map (λ i, (i, 0%R)) (seq 0 (length books))).
Proof.
  destruct (load_engine_Ok books)
    as (docs & engine & Hload & Hengine & Hdocuments & Hlen & Hids & _ & Hsearch).
  destruct (load_engine_scores books) as (docs' & engine' & Hload' & Hengine' & Hscores).
  assert (docs' = docs) as -> by congruence.
  assert (engine' = engine) as -> by congruence.
  set (query_vector := SearchEngine.query_vector_of (Str.split (Str.lower query))) in *.
  set (ranking0 :=
         map (λ doc, (Document.doc_id doc, SearchEngine.score_of engine query doc)) docs).
  assert (ranking0
          = map (λ doc, (Document.doc_id doc, score_sum engine query_vector doc)) docs)
    as Hranking0.
  { unfold ranking0. apply map_ext_in. intros doc Hdoc%list_elem_of_In.
    unfold SearchEngine.score_of, query_vector.
    by rewrite (Hscores query doc Hdoc). }
  assert (map fst ranking0 = seq 0 (length books)) as Hfst.
  { unfold ranking0. rewrite map_map. cbn [fst]. done. }
  assert (∀ j d, docs !! j = Some d → Document.doc_id d = j) as Hid.
  { intros j d Hj. apply (f_equal (λ l, l !! j)) in Hids.
    rewrite list_lookup_fmap, Hj in Hids. cbn in Hids.
    symmetry in Hids. by apply lookup_seq in Hids as [-> _]. }
  exists engine, (sort_desc snd ranking0).
  split_and!; [done|apply Hsearch|by rewrite Hdocuments| | | | | | |].
  - rewrite sort_desc_length. unfold ranking0. by rewrite length_map, Hdocuments.
  - rewrite sort_desc_perm, Hfst, Hdocuments. by rewrite Hids.
  - by rewrite sort_desc_perm, Hfst.
  - by rewrite sort_desc_perm, Hranking0, Hdocuments.
  - intros i score. rewrite sort_desc_perm, Hranking0, Hdocuments. split.
    + intros (doc & [= Hi ->] & Hdoc)%list_elem_of_fmap.
      pose proof Hdoc as [j Hj]%list_elem_of_lookup.
      pose proof (Hid j doc Hj) as Hjd.
      exists doc. split_and!; [congruence|congruence| |done].
      unfold query_vector. by apply Hscores.
    + intros (doc & Hdoc & Hi & _ & ->).
      apply list_elem_of_fmap. exists doc. split; [by rewrite Hi|].
      by eapply list_elem_of_lookup_2.
  - apply (sort_desc_sorted snd (λ a b, (a.1 < b.1)%nat)).
    apply (StronglySorted_map fst lt). rewrite Hfst. apply seq_StronglySorted.
  - intros ->.
    assert (ranking0 = map (λ i, (i, 0%R)) (seq 0 (length books))) as Hzero.
    { rewrite <-Hids, map_map. unfold ranking0. apply map_ext. intros doc.
      unfold SearchEngine.score_of. cbn [Str.lower Str.split].
      by rewrite SearchFacts.query_vector_nil, SearchFacts.score_document_no_terms. }
    rewrite Hzero. apply sort_desc_sorted_id.
    generalize (seq 0 (length books)). intros ids.
    induction ids as [|i ids IH]; cbn [map]; constructor; [done|].
    apply Forall_forall. intros [j s] (k & [= -> ->] & _)%list_elem_of_fmap. cbn. lra.
Qed.

Example sort_desc_example :
  sort_desc snd [(0, 1); (1, 3); (2, 1); (3, 3); (4, 2)]%R
  = [(1, 3); (3, 3); (4, 2); (0, 1); (2, 1)]%R.
Proof.
  cbn [sort_desc foldr insert_desc snd].
  repeat first [rewrite decide_True by lra | rewrite decide_False by lra];
    cbn [insert_desc snd].
  repeat (first [rewrite decide_True by lra | rewrite decide_False by lra];
          cbn [insert_desc snd]).
  reflexivity.
Qed.

(** ** Degenerate inputs *)

(** C7: for a record of the corpus whose text has no token
    ([length == 0]), [compute_term_frequencies] returns without
    dividing, the frequency table of the document is empty, and in the
    ranking of every query the document has score 0. *)
Theorem empty_document_scores_zero (books : list Book) (i : nat) (book : Book) :
  books !! i = Some book →
  Document.length
    (Document.init i (book_title book) (book_author book) (book_description book))
  = 0%nat →
  ∃ doc engine,
    prepare (i, book) = Ok doc
    ∧ Document.term_frequencies doc = ∅
    ∧ load_engine books = Ok engine
    ∧ SearchEngine.documents engine !! i = Some doc
    ∧ ∀ query, ∃ ranking,
        SearchEngine.search engine query = Ok ranking
        ∧ (i, 0%R) ∈ ranking
        ∧ ∀ score, (i, score) ∈ ranking → score = 0%R.
Proof.
  intros Hbook Hlen.
  destruct (load_engine_Ok books)
    as (docs & engine & _ & Hengine & Hdocuments & Hlength & Hids & Hbooks & Hsearch).
  destruct (docs !! i) as [doc|] eqn:Hdoc.
  2:{ apply lookup_ge_None in Hdoc. apply lookup_lt_Some in Hbook. lia. }
  destruct (Hbooks i doc Hdoc) as (book' & Hbook' & Hprepare).
  assert (book' = book) as -> by congruence.
  assert (Document.term_frequencies doc = ∅) as Hempty.
  { destruct (SearchFacts.prepare_Ok i book) as (tf & Hprepare' & Htf).
    rewrite Hprepare in Hprepare'. injection Hprepare' as ->.
    cbn [Document.set_term_frequencies Document.term_frequencies].
    apply map_eq. intros term. rewrite Htf, lookup_empty.
    rewrite DocumentFacts.init_length in Hlen. apply nil_length_inv in Hlen.
    rewrite Hlen. rewrite decide_False; [done|]. apply not_elem_of_nil. }
  assert (∀ j d, docs !! j = Some d → Document.doc_id d = j) as Hid.
  { intros j d Hj. apply (f_equal (λ l, l !! j)) in Hids.
    rewrite list_lookup_fmap, Hj in Hids. cbn in Hids.
    symmetry in Hids. apply lookup_seq in Hids as [-> _]. done. }
  exists doc, engine. split_and!; [done|done|done|by rewrite Hdocuments|].
  intros query. eexists. split; [apply Hsearch|].
  assert (∀ score,
            (i, score) ∈ map (λ d, (Document.doc_id d, SearchEngine.score_of engine query d))
                           docs
            ↔ score = 0%R) as Hscore.
  { intros score. split.
    - intros (d & [= Hi ->] & Hd)%list_elem_of_fmap.
      apply list_elem_of_lookup in Hd as [j Hj].
      pose proof (Hid j d Hj) as Hjd. assert (j = i) as -> by congruence.
      assert (d = doc) as -> by congruence.
      unfold SearchEngine.score_of. by rewrite SearchFacts.score_document_empty.
    - intros ->. apply list_elem_of_fmap. exists doc. split.
      + unfold SearchEngine.score_of. rewrite SearchFacts.score_document_empty by done.
        by rewrite (Hid i doc Hdoc).
      + by eapply list_elem_of_lookup_2. }
  split.
  - rewrite sort_desc_perm. by apply Hscore.
  - intros score. rewrite sort_desc_perm. apply Hscore.
Qed.

(** C7 on a corpus of two records, the second with three empty fields. *)
Lemma empty_document_scores_zero_witness :
  ∃ doc engine,
    prepare (1%nat, mkBook "" "" "") = Ok doc
    ∧ Document.term_frequencies doc = ∅
    ∧ load_engine [mkBook "dune" "herbert" "classic"; mkBook "" "" ""] = Ok engine
    ∧ SearchEngine.documents engine !! 1%nat = Some doc
    ∧ ∀ query, ∃ ranking,
        SearchEngine.search engine query = Ok ranking
        ∧ (1%nat, 0%R) ∈ ranking
        ∧ ∀ score, (1%nat, score) ∈ ranking → score = 0%R.
Proof.
  apply (empty_document_scores_zero
           [mkBook "dune" "herbert" "classic"; mkBook "" "" ""] 1 (mkBook "" "" ""));
    reflexivity.
Defined.

(** C8, as stated, fails: construction on zero documents does not
    raise, no guard rejects the empty corpus. *)
Lemma empty_corpus_not_rejected :
  SearchEngine.init [] = Ok empty_engine
  ∧ ¬ ∃ e, SearchEngine.init [] = Raise e.
Proof. split; [reflexivity|]. intros [e He]. discriminate He. Qed.

(** C8, amended: on zero documents construction succeeds with an empty
    index and an empty IDF table (the loop that divides by the number of
    postings and takes the logarithm has no entry to run on), and every
    query returns the empty ranking: no exception at construction or at
    query time. *)
Theorem empty_corpus_engine (query : string) :
  load_engine [] = Ok empty_engine
  ∧ SearchEngine.init [] = Ok empty_engine
  ∧ SearchEngine.index empty_engine = []
  ∧ SearchEngine.idf_scores empty_engine = ∅
  ∧ SearchEngine.search empty_engine query = Ok [].
Proof. repeat split. Qed.

(** ** Term frequencies count substrings *)

(** C1: on the record with title "art" and author "martin" the text is
    "art martin " with the two tokens "art" and "martin"; the token
    "art" occurs once, but [text.count] also finds it inside "martin",
    so the stored frequency is 2/2 and not 1/2. *)
Theorem term_frequency_counts_substrings :
  ∃ doc value,
    prepare (0%nat, mkBook "art" "martin" "") = Ok doc
    ∧ Document.text doc = "art martin "
    ∧ Str.split (Document.text doc) = ["art"; "martin"]
    ∧ Document.length doc = 2%nat
    ∧ list_count "art" (Str.split (Document.text doc)) = 1%nat
    ∧ Str.count (Document.text doc) "art" = 2%nat
    ∧ Document.term_frequencies doc !! "art" = Some value
    ∧ value = 1%R
    ∧ value ≠ (INR 1 / INR 2)%R.
Proof.
  destruct (SearchFacts.prepare_Ok 0 (mkBook "art" "martin" "")) as (tf & Hprepare & Htf).
  eexists. exists (INR 2 / INR 2)%R.
  split; [exact Hprepare|].
  cbn [Document.set_term_frequencies Document.text Document.length
       Document.term_frequencies].
  split_and!; try reflexivity.
  - rewrite Htf. rewrite decide_True; [reflexivity|].
    change ("art" ∈ ["art"; "martin"]). left.
  - cbn [INR]. lra.
  - cbn [INR]. lra.
Qed.

(** C4: on the record with title "go" and author "gogol" the text has
    two tokens and [text.count] finds "go" three times, so the stored
    frequency of "go" is 3/2, above 1. *)
Theorem term_frequency_exceeds_one :
  ∃ doc value,
    prepare (0%nat, mkBook "go" "gogol" "") = Ok doc
    ∧ Document.length doc = 2%nat
    ∧ Document.term_frequencies doc !! "go" = Some value
    ∧ value = (3 / 2)%R
    ∧ ¬ (0 < value <= 1)%R.
Proof.
  destruct (SearchFacts.prepare_Ok 0 (mkBook "go" "gogol" "")) as (tf & Hprepare & Htf).
  eexists. exists (INR 3 / INR 2)%R.
  split; [exact Hprepare|].
  cbn [Document.set_term_frequencies Document.text Document.length
       Document.term_frequencies].
  split_and!; try reflexivity.
  - rewrite Htf. rewrite decide_True; [reflexivity|].
    change ("go" ∈ ["go"; "gogol"]). left.
  - cbn [INR]. lra.
  - cbn [INR]. lra.
Qed.

(** ** Pagination *)

Section Pagination.
Variables (search_engine : SearchEngine.t) (preprocessed_books : list Book).

Lemma leading_entries_lines entries rest :
  Forall is_line entries →
  leading_entries (entries ++ rest) = (length entries + leading_entries rest)%nat.
Proof.
  induction 1 as [|piece entries Hpiece _ IH]; [done|].
  destruct piece; try done. cbn. by rewrite IH.
Qed.

Lemma page_sizes_lines entries rest :
  Forall is_line entries → page_sizes (entries ++ rest) = page_sizes rest.
Proof.
  induction 1 as [|piece entries Hpiece _ IH]; [done|]. by destruct piece.
Qed.

Lemma getitem_Ok {A : Type} (xs : list A) i x : xs !! i = Some x → getitem xs i = Ok x.
Proof. unfold getitem. by intros ->. Qed.

(** A page whose range lies within a resolvable ranking raises no
    [IndexError] and has one entry per index of the range. *)
Lemma page_entries_Ok filtered (start_index end_index : nat) :
  resolvable search_engine preprocessed_books filtered →
  (end_index ≤ length filtered)%nat →
  ∃ entries,
    page_entries search_engine preprocessed_books filtered start_index end_index
    = Ok entries
    ∧ length entries = (end_index - start_index)%nat
    ∧ Forall is_line entries.
Proof.
  intros Hres Hend. unfold page_entries, range.
  assert (∀ idx, idx ∈ seq start_index (end_index - start_index) →
            (idx < length filtered)%nat) as Hbound.
  { intros idx Hidx%elem_of_seq. lia. }
  enough (∀ idxs,
            (∀ idx, idx ∈ idxs → (idx < length filtered)%nat) →
            ∃ entries,
              collect
                (fun idx =>
                   entry ← getitem filtered idx;
                   let '(doc_id, score) := entry in
                   doc ← getitem (SearchEngine.documents search_engine) doc_id;
                   original_book_info ←
                     getitem preprocessed_books (Document.doc_id doc);
                   Ok (BookLine (Document.doc_id doc) (book_title original_book_info)
                         (book_author original_book_info) score))
                idxs = Ok entries
              ∧ length entries = length idxs
              ∧ Forall is_line entries) as Hgen.
  { destruct (Hgen _ Hbound) as (entries & Hentries & Hlen & Hlines).
    exists entries. by rewrite length_seq in Hlen. }
  clear Hbound.
  intros idxs. induction idxs as [|idx idxs IH]; intros Hbound.
  - exists []. by split_and!.
  - destruct IH as (entries & Hentries & Hlen & Hlines).
    { intros i Hi. apply Hbound. by right. }
    destruct (lookup_lt_is_Some_2 filtered idx) as [[doc_id score] Hentry].
    { apply Hbound. left. }
    destruct (Hres doc_id score) as (doc & book & Hdoc & Hbook).
    { by eapply list_elem_of_lookup_2. }
    cbn [collect]. rewrite (getitem_Ok _ _ _ Hentry), bind_Ok.
    rewrite (getitem_Ok _ _ _ Hdoc), bind_Ok.
    rewrite (getitem_Ok _ _ _ Hbook), !bind_Ok.
    rewrite Hentries, bind_Ok.
    eexists. split; [done|]. split; [cbn; by rewrite Hlen|].
    by constructor.
Qed.

(** The pages of the interactive presenter, for any list of page
    numbers. *)
Lemma interactive_pages filtered page_nums :
  resolvable search_engine preprocessed_books filtered →
  ∃ pages,
    collect
      (fun page_num =>
         let start_index := (page_num * 5)%nat in
         let end_index := Nat.min (start_index + 5) (length filtered) in
         entries ← page_entries search_engine preprocessed_books
                     filtered start_index end_index;
         Ok (PageHeader (page_num + 1) :: entries ++ [PageBreak]))
      page_nums = Ok pages
    ∧ page_sizes (concat pages) = map (page_size_of 5 (length filtered)) page_nums.
Proof.
  intros Hres. induction page_nums as [|k page_nums IH].
  - by exists [].
  - destruct IH as (pages & Hpages & Hsizes).
    destruct (page_entries_Ok filtered (k * 5) (Nat.min (k * 5 + 5) (length filtered)))
      as (entries & Hentries & Hlen & Hlines); [done|lia|].
    cbn [collect]. cbn zeta in *. rewrite Hentries, bind_Ok, Hpages, bind_Ok.
    eexists. split; [done|].
    cbn [concat map app page_sizes]. rewrite <-app_assoc.
    rewrite leading_entries_lines, page_sizes_lines by done.
    cbn [app leading_entries page_sizes]. rewrite Hsizes.
    f_equal. unfold page_size_of. lia.
Qed.

Lemma concat_pages_leading (pages : list (list Piece)) :
  Forall (λ page, ∃ n rest, page = PageHeader n :: rest) pages →
  leading_entries (concat pages) = 0%nat.
Proof. destruct 1 as [|page pages (n & rest & ->) _]; done. Qed.

(** The pages of the printing presenter, for any list of page numbers. *)
Lemma printed_pages filtered page_size page_nums :
  resolvable search_engine preprocessed_books filtered →
  ∃ pages,
    collect
      (fun page_num =>
         let start_index := (page_num * page_size)%nat in
         let end_index := Nat.min (start_index + page_size) (length filtered) in
         entries ← page_entries search_engine preprocessed_books
                     filtered start_index end_index;
         Ok (PageHeader (page_num + 1) :: entries))
      page_nums = Ok pages
    ∧ Forall (λ page, ∃ n rest, page = PageHeader n :: rest) pages
    ∧ page_sizes (concat pages)
      = map (page_size_of page_size (length filtered)) page_nums.
Proof.
  intros Hres. induction page_nums as [|k page_nums IH].
  - exists []. by split_and!.
  - destruct IH as (pages & Hpages & Hheaders & Hsizes).
    destruct (page_entries_Ok filtered (k * page_size)
                (Nat.min (k * page_size + page_size) (length filtered)))
      as (entries & Hentries & Hlen & Hlines); [done|lia|].
    cbn [collect]. cbn zeta in *. rewrite Hentries, bind_Ok, Hpages, bind_Ok.
    eexists. split; [done|]. split; [constructor; [by eexists _, _|done]|].
    cbn [concat map app page_sizes].
    rewrite leading_entries_lines, page_sizes_lines by done.
    rewrite concat_pages_leading by done. rewrite Hsizes.
    f_equal. unfold page_size_of. lia.
Qed.

End Pagination.

Lemma filter_all {A : Type} (P : A → Prop) `{∀ x, Decision (P x)} (l : list A) :
  Forall P l → filter P l = l.
Proof.
  induction 1 as [|x l Hx _ IH]; [done|].
  rewrite filter_cons, decide_True by done. by rewrite IH.
Qed.

Lemma resolvable_subset engine books (ranking ranking' : list (nat * R)) :
  (∀ p, p ∈ ranking' → p ∈ ranking) →
  resolvable engine books ranking → resolvable engine books ranking'.
Proof. intros Hsub Hres doc_id score Hin. by eapply Hres, Hsub. Qed.

(** The rankings over the ids of a loaded corpus are resolvable. *)
Lemma load_engine_resolvable (books : list Book) engine (ranking : list (nat * R)) :
  load_engine books = Ok engine →
  (∀ doc_id score, (doc_id, score) ∈ ranking → (doc_id < length books)%nat) →
  resolvable engine books ranking.
Proof.
  intros Hengine Hbound doc_id score Hin.
  destruct (load_engine_Ok books)
    as (docs & engine' & _ & Hengine' & Hdocuments & Hlen & Hids & Hbooks & _).
  assert (engine' = engine) as -> by congruence.
  destruct (lookup_lt_is_Some_2 docs doc_id) as [doc Hdoc].
  { rewrite Hlen. by eapply Hbound. }
  destruct (Hbooks doc_id doc Hdoc) as (book & Hbook & Hprepare).
  exists doc, book. rewrite Hdocuments. split; [done|].
  destruct (SearchFacts.prepare_Ok doc_id book) as (tf & Hprepare' & _).
  rewrite Hprepare in Hprepare'. by injection Hprepare' as ->.
Qed.

(** What the interactive presenter emits on a ranking with qualifying
    results: [min(n // 5 + 1, 10)] pages of 5, the pages past the last
    result being empty. *)
Lemma display_results_pages engine books (ranking : list (nat * R)) :
  let n := length (filter (λ p, p.2 >= 1)%R ranking) in
  resolvable engine books ranking →
  n ≠ 0%nat →
  ∃ out,
    display_results engine books ranking = Ok out
    ∧ page_sizes out = map (page_size_of 5 n) (seq 0 (Nat.min (n / 5 + 1) 10)).
Proof.
  intros n Hres Hn. unfold display_results.
  destruct ranking as [|p ranking]; [done|].
  remember (filter (λ p, p.2 >= 1)%R (p :: ranking)) as filtered eqn:Hfiltered.
  assert (∀ e, e ∈ filtered → e ∈ p :: ranking) as Hsub.
  { intros e. rewrite Hfiltered. by intros [_ ?]%list_elem_of_filter. }
  clear Hfiltered. subst n.
  destruct filtered as [|q rest]; [done|]. cbn zeta.
  set (filtered := q :: rest) in *. set (n := length filtered) in *.
  assert (length (sort_desc snd filtered) = n) as Hlen
    by by rewrite sort_desc_length.
  rewrite Hlen.
  destruct (interactive_pages engine books (sort_desc snd filtered)
              (range 0 (Nat.min (n / 5 + 1) 10))) as (pages & Hpages & Hsizes).
  { eapply resolvable_subset; [|exact Hres].
    intros e. rewrite sort_desc_perm. apply Hsub. }
  rewrite Hlen in Hpages, Hsizes. cbn zeta in Hpages.
  rewrite Hpages, bind_Ok. exists (concat pages). split; [done|].
  rewrite Hsizes. unfold range. by rewrite Nat.sub_0_r.
Qed.

(** What the printing presenter emits: [ceil(n / page_size)] pages. *)
Lemma SearchEngine_display_results_pages self engine books (ranking : list (nat * R))
    (threshold : R) (page_size : nat) :
  let n := length (filter (λ p, p.2 >= threshold)%R ranking) in
  resolvable engine books ranking →
  n ≠ 0%nat →
  page_size ≠ 0%nat →
  ∃ out,
    SearchEngine_display_results self engine books ranking threshold page_size = Ok out
    ∧ page_sizes out
      = map (page_size_of page_size n) (seq 0 ((n + page_size - 1) / page_size)).
Proof.
  intros n Hres Hn Hp. unfold SearchEngine_display_results.
  destruct ranking as [|p ranking]; [done|].
  remember (filter (λ p, p.2 >= threshold)%R (p :: ranking)) as filtered eqn:Hfiltered.
  assert (∀ e, e ∈ filtered → e ∈ p :: ranking) as Hsub.
  { intros e. rewrite Hfiltered. by intros [_ ?]%list_elem_of_filter. }
  clear Hfiltered. subst n.
  destruct filtered as [|q rest]; [done|]. cbn zeta.
  set (filtered := q :: rest) in *. set (n := length filtered) in *.
  assert (length (sort_desc snd filtered) = n) as Hlen
    by by rewrite sort_desc_length.
  rewrite Hlen. unfold math_ceil_div.
  destruct page_size as [|page_size']; [done|]. rewrite bind_Ok.
  set (page_size := S page_size') in *.
  destruct (printed_pages engine books (sort_desc snd filtered) page_size
              (range 0 ((n + page_size - 1) / page_size)))
    as (pages & Hpages & _ & Hsizes).
  { eapply resolvable_subset; [|exact Hres].
    intros e. rewrite sort_desc_perm. apply Hsub. }
  rewrite Hlen in Hpages, Hsizes. cbn zeta in Hpages.
  rewrite Hpages, bind_Ok. exists (concat pages). split; [done|].
  rewrite Hsizes. unfold range. by rewrite Nat.sub_0_r.
Qed.

Lemma filter_none {A : Type} (P : A → Prop) `{∀ x, Decision (P x)} (l : list A) :
  Forall (λ x, ¬ P x) l → filter P l = [].
Proof.
  induction 1 as [|x l Hx _ IH]; [done|].
  by rewrite filter_cons, decide_False.
Qed.

Lemma ranking_of_qualifying (qualifying total : nat) :
  length (filter (λ p, p.2 >= 1)%R (ranking_of qualifying total)) = qualifying.
Proof.
  unfold ranking_of. rewrite filter_app, filter_all, filter_none.
  - by rewrite app_nil_r, length_map, length_seq.
  - apply Forall_forall. intros [i s] (j & [= -> ->] & _)%list_elem_of_fmap. cbn. lra.
  - apply Forall_forall. intros [i s] (j & [= -> ->] & _)%list_elem_of_fmap. cbn. lra.
Qed.

(** C5: with 5 qualifying results among 12 documents the interactive
    presenter computes [min(5 // 5 + 1, 10) = 2] pages and emits a
    second page without entries, where [ceil(5 / 5)] is 1 page; the
    printing presenter, which takes [math.ceil], emits the single page.
    With 12 qualifying results the interactive presenter emits 3 pages,
    the last with 2 entries. *)
Theorem interactive_presenter_extra_page :
  ∃ engine out printed out12,
    load_engine (corpus_of 12) = Ok engine
    ∧ display_results engine (corpus_of 12) (ranking_of 5 12) = Ok out
    ∧ page_sizes out = [5; 0]%nat
    ∧ math_ceil_div 5 5 = Ok 1%nat
    ∧ SearchEngine_display_results engine engine (corpus_of 12) (ranking_of 5 12)
        1%R 5 = Ok printed
    ∧ page_sizes printed = [5]%nat
    ∧ display_results engine (corpus_of 12) (ranking_of 12 12) = Ok out12
    ∧ page_sizes out12 = [5; 5; 2]%nat.
Proof.
  destruct (load_engine_Ok (corpus_of 12)) as (docs & engine & _ & Hengine & _).
  assert (∀ n, (n ≤ 12)%nat → resolvable engine (corpus_of 12) (ranking_of n 12))
    as Hres.
  { intros n Hn. apply load_engine_resolvable; [done|].
    intros i s. unfold ranking_of. rewrite elem_of_app.
    intros [(j & [= -> ->] & Hj%elem_of_seq)%list_elem_of_fmap
           |(j & [= -> ->] & Hj%elem_of_seq)%list_elem_of_fmap]; cbn; lia. }
  destruct (display_results_pages engine (corpus_of 12) (ranking_of 5 12))
    as (out & Hout & Hsizes); [apply Hres; lia|by rewrite ranking_of_qualifying|].
  destruct (SearchEngine_display_results_pages engine engine (corpus_of 12)
              (ranking_of 5 12) 1%R 5)
    as (printed & Hprinted & Hprinted_sizes);
    [apply Hres; lia|by rewrite ranking_of_qualifying|done|].
  destruct (display_results_pages engine (corpus_of 12) (ranking_of 12 12))
    as (out12 & Hout12 & Hsizes12); [apply Hres; lia|by rewrite ranking_of_qualifying|].
  rewrite ranking_of_qualifying in Hsizes, Hprinted_sizes, Hsizes12.
  exists engine, out, printed, out12.
  split_and!; [done|done|by rewrite Hsizes|done|done|by rewrite Hprinted_sizes|done|
               by rewrite Hsizes12].
Qed.

(** * Further properties *)

(** ** What the index holds *)

Module PostingFacts.
Import DefaultDict DefaultDictFacts.

Lemma append_at_fresh k x d :
  k ∉ keys d → append_at k x (d ++ [(k, [])]) = d ++ [(k, [x])].
Proof.
  induction d as [|[k' v] d IH]; intros Hk; cbn [append_at app].
  - by rewrite decide_True.
  - cbn [keys map fst] in Hk. apply not_elem_of_cons in Hk as [Hne Hk].
    rewrite decide_False by done. f_equal. by apply IH.
Qed.

(** The two cases of [d[k].append(x)]: an append to the stored list, or
    a new last entry holding [x] alone. *)
Lemma getitem_append_cases k x d :
  getitem_append k x d
  = match lookup k d with
    | Some _ => append_at k x d
    | None => d ++ [(k, [x])]
    end.
Proof.
  unfold getitem_append, getitem. destruct (lookup k d) eqn:Hk; [done|].
  apply append_at_fresh. by apply lookup_None_keys.
Qed.

Lemma posting_getitem_append k k' x d :
  posting k (getitem_append k' x d)
  = posting k d ++ (if decide (k' = k) then [x] else []).
Proof.
  unfold posting. rewrite getitem_append_cases.
  destruct (lookup k' d) as [v|] eqn:Hk'.
  - rewrite lookup_append_at. case_decide as Heq.
    + subst k'. by rewrite Hk'.
    + by rewrite app_nil_r.
  - rewrite lookup_app. case_decide as Heq.
    + subst k'. rewrite Hk'. cbn [lookup]. by rewrite decide_True.
    + destruct (lookup k d); cbn [lookup default].
      * by rewrite app_nil_r.
      * by rewrite decide_False.
Qed.

Lemma list_count_cons x y ys :
  list_count x (y :: ys)
  = ((if decide (y = x) then 1 else 0) + list_count x ys)%nat.
Proof. unfold list_count. rewrite filter_cons. by case_decide. Qed.

Lemma list_count_pos x ys : list_count x ys ≠ 0%nat ↔ x ∈ ys.
Proof.
  induction ys as [|y ys IH].
  - split; [done|]. by intros ?%elem_of_nil.
  - rewrite list_count_cons, elem_of_cons. case_decide as Heq.
    + subst y. split; [by left|]. intros _. cbn. lia.
    + cbn [Nat.add]. rewrite IH. split; [by right|]. by intros [->|?].
Qed.

Lemma posting_add_tokens id tokens field index token field' :
  posting (token, field') (InvertedIndex.add_tokens_to_index id tokens field index)
  = posting (token, field') index
    ++ (if decide (field = field') then replicate (list_count token tokens) id else []).
Proof.
  unfold InvertedIndex.add_tokens_to_index. revert index.
  induction tokens as [|tok tokens IH]; intros index; cbn [foldl].
  - case_decide; by rewrite app_nil_r.
  - rewrite IH, posting_getitem_append, list_count_cons, <-app_assoc. f_equal.
    destruct (decide (field = field')) as [->|Hf].
    + destruct (decide (tok = token)) as [->|Ht].
      * by rewrite decide_True.
      * rewrite decide_False by congruence. done.
    + rewrite decide_False by congruence. done.
Qed.

(** The posting list of a key after indexing: the ids of the documents,
    in order, each once per occurrence of the token in that field. *)
Lemma posting_index_data docs index token field :
  posting (token, field) (InvertedIndex.index_data docs index)
  = posting (token, field) index
    ++ concat (map (λ doc, replicate (field_occurrences token field doc)
                             (Document.doc_id doc)) docs).
Proof.
  unfold InvertedIndex.index_data. revert index.
  induction docs as [|doc docs IH]; intros index; cbn [foldl map concat].
  - by rewrite app_nil_r.
  - rewrite IH, !posting_add_tokens, <-!app_assoc. f_equal.
    unfold field_occurrences.
    destruct (decide (field = "title")) as [->|Ht]; [done|].
    rewrite (decide_False (P := "title" = field)) by done. cbn [app].
    destruct (decide (field = "author")) as [->|Ha]; [done|].
    rewrite (decide_False (P := "author" = field)) by done. cbn [app].
    destruct (decide (field = "description")) as [->|Hd]; [done|].
    by rewrite (decide_False (P := "description" = field)).
Qed.

Lemma append_at_entries k x d :
  Forall entry_ok d → Forall entry_ok (append_at k x d).
Proof.
  induction 1 as [|[k' v] d [Hf Hv] Hd IH]; cbn [append_at]; [done|].
  case_decide; constructor; try done.
  split; [done|]. cbn. by destruct v.
Qed.

Lemma getitem_append_entries token field x d :
  field ∈ ["title"; "author"; "description"] →
  Forall entry_ok d → Forall entry_ok (getitem_append (token, field) x d).
Proof.
  intros Hfield Hd. rewrite getitem_append_cases.
  destruct (lookup (token, field) d); [by apply append_at_entries|].
  apply Forall_app. split; [done|]. by apply Forall_singleton.
Qed.

Lemma add_tokens_entries id tokens field index :
  field ∈ ["title"; "author"; "description"] →
  Forall entry_ok index →
  Forall entry_ok (InvertedIndex.add_tokens_to_index id tokens field index).
Proof.
  intros Hfield. unfold InvertedIndex.add_tokens_to_index. revert index.
  induction tokens as [|tok tokens IH]; intros index Hindex; cbn [foldl]; [done|].
  by apply IH, getitem_append_entries.
Qed.

Lemma index_data_entries docs index :
  Forall entry_ok index → Forall entry_ok (InvertedIndex.index_data docs index).
Proof.
  unfold InvertedIndex.index_data. revert index.
  induction docs as [|doc docs IH]; intros index Hindex; cbn [foldl]; [done|].
  apply IH. repeat apply add_tokens_entries; try done; set_solver.
Qed.

End PostingFacts.

(** X1: after [index_data] on an empty index, the posting list of
    [(token, field)] holds the ids of the documents in the order of the
    collection, each id once per occurrence of the token among the
    tokens of that field: repeated tokens give repeated ids, and a key
    the documents never produce has the empty posting list. *)
Theorem index_posting_lists (docs : list Document.t) (token field : string) :
  posting (token, field) (InvertedIndex.index_data docs InvertedIndex.init)
  = concat (map (λ doc, replicate (field_occurrences token field doc)
                          (Document.doc_id doc)) docs).
Proof. by rewrite PostingFacts.posting_index_data. Qed.

(** X2: the index built by [index_data] keeps its keys pairwise
    distinct, and each entry has one of the three field names, a
    posting list that is not empty, and is what a lookup of its key
    returns. *)
Theorem index_entries_invariant (docs : list Document.t) :
  let index := InvertedIndex.index_data docs InvertedIndex.init in
  NoDup (DefaultDict.keys index)
  ∧ ∀ token field doc_list,
      ((token, field), doc_list) ∈ DefaultDict.items index →
      field ∈ ["title"; "author"; "description"]
      ∧ doc_list ≠ []
      ∧ DefaultDict.lookup (token, field) index = Some doc_list.
Proof.
  intros index.
  assert (NoDup (DefaultDict.keys index)) as Hnodup.
  { apply InvertedIndexFacts.index_data_NoDup. constructor. }
  split; [done|]. intros token field doc_list Hin.
  assert (Forall entry_ok index) as Hentries
    by by apply PostingFacts.index_data_entries.
  rewrite Forall_forall in Hentries.
  destruct (Hentries _ Hin) as [Hfield Hne]. split_and!; [done|done|].
  unfold DefaultDict.items in Hin.
  apply list_elem_of_split in Hin as (pre & post & Hsplit).
  fold index in Hsplit |- *. rewrite Hsplit in Hnodup |- *.
  apply DefaultDictFacts.lookup_middle.
  unfold DefaultDict.keys in Hnodup. rewrite map_app in Hnodup.
  apply NoDup_app in Hnodup as (_ & Hdisj & _).
  intros Hpre. apply (Hdisj _ Hpre). left.
Qed.

(** X3: on the index built from a collection, [InvertedIndex.search]
    returns the id of a document exactly when some whitespace token of
    the query, compared as it is written, is a token of the document's
    title, author or description. *)
Theorem index_search_finds_documents (docs : list Document.t) (query : string)
    (id : nat) :
  id ∈ (InvertedIndex.search query
          (InvertedIndex.index_data docs InvertedIndex.init)).1
  ↔ ∃ doc token,
      doc ∈ docs
      ∧ Document.doc_id doc = id
      ∧ token ∈ Str.split query
      ∧ (token ∈ Str.split (Document.title doc)
         ∨ token ∈ Str.split (Document.author doc)
         ∨ token ∈ Str.split (Document.description doc)).
Proof.
  rewrite search_eq. cbn [fst].
  rewrite elem_of_elements, elem_of_list_to_set, elem_of_concat.
  assert (∀ token field,
            id ∈ posting (token, field)
                   (InvertedIndex.index_data docs InvertedIndex.init)
            ↔ ∃ doc, doc ∈ docs ∧ Document.doc_id doc = id
                     ∧ field_occurrences token field doc ≠ 0%nat) as Hposting.
  { intros token field. rewrite PostingFacts.posting_index_data.
    change (posting (token, field) InvertedIndex.init) with (@nil nat). cbn [app].
    rewrite elem_of_concat. split.
    - intros (l & Hid & (doc & -> & Hdoc)%list_elem_of_fmap).
      apply elem_of_replicate in Hid as [-> Hn]. by exists doc.
    - intros (doc & Hdoc & <- & Hn). eexists. split.
      + by apply elem_of_replicate.
      + apply list_elem_of_fmap. by exists doc. }
  split.
  - intros (ids & Hid & (token & -> & Htoken)%list_elem_of_fmap).
    unfold lookup_any_field in Hid. rewrite !elem_of_app, !Hposting in Hid.
    destruct Hid as [(doc & Hdoc & Hi & Hn)|[(doc & Hdoc & Hi & Hn)|(doc & Hdoc & Hi & Hn)]];
      exists doc, token; split_and!; try done;
      apply PostingFacts.list_count_pos in Hn; auto.
  - intros (doc & token & Hdoc & Hi & Htoken & Hfield).
    exists (lookup_any_field (InvertedIndex.index_data docs InvertedIndex.init) token).
    split; [|apply list_elem_of_fmap; by exists token].
    unfold lookup_any_field. rewrite !elem_of_app, !Hposting.
    destruct Hfield as [H|[H|H]]; [left|right; left|right; right];
      exists doc; split_and!; try done; by apply PostingFacts.list_count_pos.
Qed.

(** ** Tokens *)

Module TokenFacts.
Import Str StrFacts.

Lemma is_token_cons c w :
  is_space c = false → no_space w = true → is_token (String c w) = true.
Proof. intros Hc Hw. cbn. by rewrite Hc, Hw. Qed.

Lemma is_token_no_space w : is_token w = true → no_space w = true.
Proof. by destruct w. Qed.

(** Every element of a split is a token. *)
Lemma split_tokens s : Forall (λ w, is_token w = true) (split s).
Proof.
  induction s as [|c s IH]; [constructor|].
  destruct (is_space c) eqn:Hc; [by rewrite split_space|].
  rewrite split_nonspace by done.
  destruct s as [|c' s']; [by repeat constructor; rewrite is_token_cons|].
  destruct (is_space c') eqn:Hc'.
  - constructor; [by rewrite is_token_cons|done].
  - destruct (split (String c' s')) as [|w ws].
    + by repeat constructor; rewrite is_token_cons.
    + apply Forall_cons in IH as [Hw Hws].
      constructor; [|done]. apply is_token_cons; [done|by apply is_token_no_space].
Qed.

(** A token splits into itself. *)
Lemma split_token w : is_token w = true → split w = [w].
Proof.
  induction w as [|c w IH]; [done|]. cbn [is_token no_space].
  intros [Hc Hw]%andb_true_iff. apply negb_true_iff in Hc.
  rewrite split_nonspace by done.
  destruct w as [|c' w']; [done|].
  cbn [no_space] in Hw. pose proof Hw as [Hc' _]%andb_true_iff.
  apply negb_true_iff in Hc'. rewrite Hc'. by rewrite IH.
Qed.

(** Joining tokens with a space and splitting again gives the tokens
    back. *)
Lemma split_join (ws : list string) :
  Forall (λ w, is_token w = true) ws → split (join " " ws) = ws.
Proof.
  induction 1 as [|w ws Hw Hws IH]; [done|].
  destruct ws as [|w' ws].
  - by apply split_token.
  - change (join " " (w :: w' :: ws)) with (w +:+ String " " (join " " (w' :: ws))).
    rewrite split_app_space by done. by rewrite IH, split_token.
Qed.

(** A token of a split occurs in the string, and the first token of a
    string that starts with a character other than whitespace starts
    the string. *)
Lemma split_occurs s :
  (∀ w, w ∈ split s → ∃ pre post, s = pre +:+ w +:+ post)
  ∧ (∀ w ws, split s = w :: ws →
       match s with
       | EmptyString => True
       | String c _ => is_space c = false → ∃ post, s = w +:+ post
       end).
Proof.
  induction s as [|c s [IHin IHhead]].
  { split; [by intros w ?%elem_of_nil|done]. }
  destruct (is_space c) eqn:Hc.
  { rewrite split_space by done. split; [|done].
    intros w (pre & post & ->)%IHin. by exists (String c pre), post. }
  rewrite split_nonspace by done.
  assert (∀ w, w ∈ split s → ∃ pre post, String c s = pre +:+ w +:+ post) as Hshift.
  { intros w (pre & post & ->)%IHin. by exists (String c pre), post. }
  destruct s as [|c' s'].
  { split.
    - intros w ->%list_elem_of_singleton. by exists "", "".
    - intros w ws [= <- <-] _. by exists "". }
  destruct (is_space c') eqn:Hc'.
  { split.
    - intros w [->|Hw]%elem_of_cons; [by exists "", (String c' s')|by apply Hshift].
    - intros w ws [= <- <-] _. by exists (String c' s'). }
  destruct (split (String c' s')) as [|w0 ws0] eqn:Hsplit.
  { split.
    - intros w ->%list_elem_of_singleton. by exists "", (String c' s').
    - intros w ws [= <- <-] _. by exists (String c' s'). }
  destruct (IHhead w0 ws0 eq_refl eq_refl) as [post0 Hpost0].
  split.
  - intros w [->|Hw]%elem_of_cons.
    + exists "", post0. by rewrite append_empty, append_String, <-Hpost0.
    + apply Hshift. by right.
  - intros w ws [= <- <-] _. exists post0. by rewrite append_String, <-Hpost0.
Qed.

Lemma prefix_append sub post : String.prefix sub (sub +:+ post) = true.
Proof.
  induction sub as [|c sub IH]; [by destruct post|].
  rewrite append_String. cbn [String.prefix].
  by destruct (ascii_dec c c).
Qed.

(** [text.count(sub)] is at least 1 when [sub] occurs in [text]. *)
Lemma count_occurs pre sub post :
  (1 ≤ count (pre +:+ sub +:+ post) sub)%nat.
Proof.
  unfold count. induction pre as [|c pre IH].
  - rewrite append_empty. destruct sub as [|c sub].
    { rewrite append_empty. destruct post; cbn [count_from String.prefix]; lia. }
    rewrite append_String. cbn [count_from].
    pose proof (prefix_append (String c sub) post) as Hprefix.
    rewrite append_String in Hprefix. rewrite Hprefix. lia.
  - rewrite append_String. cbn [count_from].
    destruct (String.prefix sub (String c (pre +:+ sub +:+ post))); lia.
Qed.

(** A token of a text is counted at least once in it. *)
Lemma count_token text w : w ∈ split text → (1 ≤ count text w)%nat.
Proof.
  intros (pre & post & ->)%(proj1 (split_occurs text)). apply count_occurs.
Qed.

End TokenFacts.

(** ** Documents *)

(** X4: the tokens of a document's text are the tokens of its title,
    then of its author, then of its description, whatever whitespace
    the fields hold at their ends, and [length] is the sum of the three
    token counts. *)
Theorem document_text_tokens (id : nat) (title author description : string) :
  let doc := Document.init id title author description in
  Str.split (Document.text doc)
  = Str.split title ++ Str.split author ++ Str.split description
  ∧ Document.length doc
    = (length (Str.split title) + length (Str.split author)
       + length (Str.split description))%nat.
Proof.
  intros doc. pose proof (DocumentFacts.init_tokens id title author description) as Htokens.
  split; [done|]. unfold doc. rewrite DocumentFacts.init_length, Htokens.
  rewrite !length_app. lia.
Qed.

(** A term with a frequency is counted at least once in a text with at
    least one token, so its frequency is positive. *)
Lemma frequency_positive (text term : string) :
  term ∈ Str.split text →
  (0 < INR (Str.count text term) / INR (length (Str.split text)))%R.
Proof.
  intros Hterm. apply Rdiv_lt_0_compat; apply lt_0_INR.
  - pose proof (TokenFacts.count_token text term Hterm). lia.
  - destruct (Str.split text); [by apply elem_of_nil in Hterm|cbn; lia].
Qed.

(** X5: [compute_term_frequencies] on a fresh document never raises and
    changes nothing but the table; the keys of the table are exactly
    the tokens of the three fields, and the value of a key is
    [text.count(key) / length], a positive number. *)
Theorem term_frequencies_table (id : nat) (title author description : string)
    (index : DefaultDict.t) :
  let doc0 := Document.init id title author description in
  ∃ tf,
    Document.compute_term_frequencies doc0 index
    = Ok (Document.set_term_frequencies doc0 tf)
    ∧ (∀ term, is_Some (tf !! term)
               ↔ term ∈ Str.split title ++ Str.split author ++ Str.split description)
    ∧ ∀ term value, tf !! term = Some value →
        value = (INR (Str.count (Document.text doc0) term)
                 / INR (Document.length doc0))%R
        ∧ (0 < value)%R.
Proof.
  intros doc0.
  destruct (DocumentFacts.compute_term_frequencies_init id title author description index)
    as (tf & Hcompute & Htf).
  fold doc0 in Hcompute, Htf.
  exists tf. split; [done|]. split.
  - intros term. rewrite Htf.
    rewrite <-(DocumentFacts.init_tokens id title author description). fold doc0.
    case_decide; split; try done.
  - intros term value. rewrite Htf. case_decide as Hin; [|done].
    intros [= <-]. split; [done|].
    change (Document.length doc0) with (length (Str.split (Document.text doc0))).
    by apply frequency_positive.
Qed.

(** ** IDF values and scores *)

Lemma ln_monotone (x y : R) : (0 < x)%R → (x <= y)%R → (ln x <= ln y)%R.
Proof.
  intros Hx [Hlt| ->]; [|lra]. left. by apply ln_increasing.
Qed.

(** The value of every key of the IDF table is bounded by [ln(N / 2)]:
    the posting list behind it has an entry. *)
Lemma idf_value_bound (docs : list Document.t) engine key value :
  SearchEngine.init docs = Ok engine →
  SearchEngine.idf_scores engine !! key = Some value →
  (∃ term field, (term, field) ∈ DefaultDict.keys (SearchEngine.index engine)
                 ∧ Str.lower term = key)
  ∧ (value <= ln (INR (length docs) / 2))%R
  ∧ ((length docs ≤ 2)%nat → (value <= 0)%R).
Proof.
  intros Hinit Hvalue.
  destruct (IdfFacts.init_Ok docs) as (engine' & Hinit' & Hdocs & Hindex & Hloop).
  assert (engine' = engine) as -> by congruence.
  destruct (IdfFacts.idf_loop (length docs)
              (DefaultDict.items (SearchEngine.index engine)) ∅)
    as (idf & Hidf & _ & _ & Hlast).
  { intros Hitems ->%nil_length_inv. apply Hitems. by rewrite Hindex. }
  assert (idf = SearchEngine.idf_scores engine) as -> by congruence.
  destruct (Hlast key value Hvalue)
    as [[Hempty _]|(pre & t & f & l & post & Hitems & Hlow & _ & ->)].
  { by rewrite lookup_empty in Hempty. }
  assert (((t, f), l) ∈ SearchEngine.index engine) as Hin.
  { unfold DefaultDict.items in Hitems. rewrite Hitems.
    apply elem_of_app. right. left. }
  assert (l ≠ []) as Hl.
  { assert (Forall entry_ok (SearchEngine.index engine)) as Hok.
    { rewrite Hindex. by apply PostingFacts.index_data_entries. }
    rewrite Forall_forall in Hok. by destruct (Hok _ Hin). }
  assert (length docs ≠ 0%nat) as Hn.
  { intros ->%nil_length_inv. rewrite Hindex in Hin. by apply elem_of_nil in Hin. }
  assert (0 < INR (length docs))%R as Hn' by (apply lt_0_INR; lia).
  assert (2 <= INR (1 + length l))%R as Hdf.
  { assert (1 ≤ length l)%nat as Hlen by (destruct l; cbn [length]; [done|lia]).
    apply le_INR in Hlen. rewrite plus_INR. change (INR 1) with 1%R in *. lra. }
  assert (ln (INR (length docs) / INR (1 + length l))
          <= ln (INR (length docs) / 2))%R as Hbound.
  { apply ln_monotone.
    - apply Rdiv_lt_0_compat; lra.
    - apply Rmult_le_compat_l; [lra|]. apply Rinv_le_contravar; lra. }
  split_and!; [|done|].
  - exists t, f. split; [|done]. unfold DefaultDict.keys.
    apply list_elem_of_fmap. by exists ((t, f), l).
  - intros Hsmall. etransitivity; [exact Hbound|].
    rewrite <-ln_1. apply ln_monotone; [lra|].
    apply le_INR in Hsmall. cbn [INR] in Hsmall. lra.
Qed.

(** X6: construction succeeds; the keys of the IDF table are the
    lower-case forms of the terms of the index, and every value is at
    most [ln(N / 2)] for [N] documents, because every posting list has
    an entry: with one or two documents no IDF value is positive. *)
Theorem idf_scores_bound (docs : list Document.t) :
  ∃ engine,
    SearchEngine.init docs = Ok engine
    ∧ (∀ key,
         is_Some (SearchEngine.idf_scores engine !! key)
         ↔ ∃ term field,
             is_Some (DefaultDict.lookup (term, field) (SearchEngine.index engine))
             ∧ Str.lower term = key)
    ∧ ∀ key value,
        SearchEngine.idf_scores engine !! key = Some value →
        (value <= ln (INR (length docs) / 2))%R
        ∧ ((length docs ≤ 2)%nat → (value <= 0)%R).
Proof.
  destruct (IdfFacts.init_Ok docs) as (engine & Hinit & _).
  exists engine. split; [done|]. split.
  - intros key. split.
    + intros [value Hvalue].
      destruct (idf_value_bound docs engine key value Hinit Hvalue)
        as ((term & field & Hkey & Hlow) & _).
      exists term, field. split; [|done].
      by apply DefaultDictFacts.lookup_is_Some_keys.
    + intros (term & field & Hkey%DefaultDictFacts.lookup_is_Some_keys & <-).
      by eapply IdfFacts.idf_scores_key.
  - intros key value Hvalue.
    by destruct (idf_value_bound docs engine key value Hinit Hvalue) as (_ & ? & ?).
Qed.

(** X7: [search] does not see the case of the query: a query and its
    lower-case form give the same result, a raised exception included. *)
Theorem search_case_insensitive (self : SearchEngine.t) (query : string) :
  SearchEngine.search self (Str.lower query) = SearchEngine.search self query.
Proof. unfold SearchEngine.search. by rewrite StrFacts.lower_idemp. Qed.

(** The ranking of the program's engine, pair by pair: the pairs under
    an id are the scores of the document at that position. *)
Lemma load_engine_ranking (books : list Book) :
  ∃ docs engine,
    load_engine books = Ok engine
    ∧ SearchEngine.documents engine = docs
    ∧ SearchEngine.init docs = Ok engine
    ∧ length docs = length books
    ∧ (∀ i doc, docs !! i = Some doc →
         ∃ book, books !! i = Some book ∧ prepare (i, book) = Ok doc)
    ∧ ∀ query, ∃ ranking,
        SearchEngine.search engine query = Ok ranking
        ∧ ∀ i score,
            (i, score) ∈ ranking
            ↔ ∃ doc, docs !! i = Some doc
                     ∧ score = SearchEngine.score_of engine query doc.
Proof.
  destruct (load_engine_Ok books)
    as (docs & engine & Hload & Hengine & Hdocuments & Hlength & Hids & Hbooks & Hsearch).
  exists docs, engine. split_and!; try done.
  { unfold load_engine in Hengine. by rewrite Hload, bind_Ok in Hengine. }
  assert (∀ j d, docs !! j = Some d → Document.doc_id d = j) as Hid.
  { intros j d Hj. apply (f_equal (λ l, l !! j)) in Hids.
    rewrite list_lookup_fmap, Hj in Hids. cbn in Hids.
    symmetry in Hids. by apply lookup_seq in Hids as [-> _]. }
  intros query. eexists. split; [apply Hsearch|].
  intros i score. rewrite sort_desc_perm. split.
  - intros (d & [= Hi ->] & Hd)%list_elem_of_fmap.
    apply list_elem_of_lookup in Hd as [j Hj].
    pose proof (Hid j d Hj) as Hjd. exists d. split; [congruence|done].
  - intros (doc & Hdoc & ->). apply list_elem_of_fmap. exists doc. split.
    + by rewrite (Hid i doc Hdoc).
    + by eapply list_elem_of_lookup_2.
Qed.

(** A document that holds none of the query terms scores 0. *)
Lemma score_document_unmatched (self : SearchEngine.t) query_vector doc :
  (∀ term n, (term, n) ∈ query_vector →
     Document.term_frequencies doc !! term = None) →
  SearchEngine.score_document self query_vector doc = Ok 0%R.
Proof.
  unfold SearchEngine.score_document. generalize 0%R.
  induction query_vector as [|[term n] qv IH]; intros s Hnone; cbn [for_each]; [done|].
  rewrite (Hnone term n) by left. rewrite bind_Ok. apply IH.
  intros t' n' Hin. apply (Hnone t' n'). by right.
Qed.

(** X8: a document of the corpus none of whose tokens is a lowered
    query term has score 0 in the ranking of that query: an unknown
    term adds nothing. *)
Theorem unmatched_document_scores_zero (books : list Book) (i : nat) (book : Book)
    (query : string) :
  books !! i = Some book →
  (∀ term, term ∈ Str.split (Str.lower query) →
     term ∉ Str.split (book_title book) ++ Str.split (book_author book)
            ++ Str.split (book_description book)) →
  ∃ engine ranking,
    load_engine books = Ok engine
    ∧ SearchEngine.search engine query = Ok ranking
    ∧ (i, 0%R) ∈ ranking
    ∧ ∀ score, (i, score) ∈ ranking → score = 0%R.
Proof.
  intros Hbook Hunmatched.
  destruct (load_engine_ranking books)
    as (docs & engine & Hengine & _ & _ & Hlength & Hbooks & Hsearch).
  destruct (Hsearch query) as (ranking & Hranking & Hpairs).
  destruct (lookup_lt_is_Some_2 docs i) as [doc Hdoc].
  { rewrite Hlength. by eapply lookup_lt_Some. }
  destruct (Hbooks i doc Hdoc) as (book' & Hbook' & Hprepare).
  assert (book' = book) as -> by congruence.
  assert (SearchEngine.score_of engine query doc = 0%R) as Hzero.
  { unfold SearchEngine.score_of. rewrite score_document_unmatched; [done|].
    intros term n Hterm%SearchFacts.query_vector_keys.
    destruct (SearchFacts.prepare_Ok i book) as (tf & Hprepare' & Htf).
    rewrite Hprepare in Hprepare'. injection Hprepare' as ->.
    cbn [Document.set_term_frequencies Document.term_frequencies].
    rewrite Htf, DocumentFacts.init_tokens. rewrite decide_False; [done|].
    by apply Hunmatched. }
  exists engine, ranking. split_and!; [done|done| |].
  - apply Hpairs. by exists doc.
  - intros score (doc' & Hdoc' & ->)%Hpairs. congruence.
Qed.

(** X8 on a two-record corpus and a query that names the first record
    only. *)
Lemma unmatched_document_scores_zero_witness :
  ∃ engine ranking,
    load_engine [mkBook "dune" "herbert" "classic"; mkBook "emma" "austen" "novel"]
    = Ok engine
    ∧ SearchEngine.search engine "Dune classic" = Ok ranking
    ∧ (1%nat, 0%R) ∈ ranking
    ∧ ∀ score, (1%nat, score) ∈ ranking → score = 0%R.
Proof.
  apply (unmatched_document_scores_zero
           [mkBook "dune" "herbert" "classic"; mkBook "emma" "austen" "novel"]
           1 (mkBook "emma" "austen" "novel") "Dune classic").
  - reflexivity.
  - apply Forall_forall. cbv beta.
    match goal with |- ?G => refine (@bool_decide_unpack G _ _) end.
    vm_compute. exact I.
Defined.

(** With frequencies that are not negative and IDF values that are not
    positive, no score is positive. *)
Lemma score_document_nonpositive (self : SearchEngine.t) query_vector doc score :
  (∀ term value, Document.term_frequencies doc !! term = Some value → (0 <= value)%R) →
  (∀ term value, SearchEngine.idf_scores self !! term = Some value → (value <= 0)%R) →
  SearchEngine.score_document self query_vector doc = Ok score →
  (score <= 0)%R.
Proof.
  intros Htf Hidf. unfold SearchEngine.score_document.
  assert (0 <= 0)%R as Hzero by lra. revert Hzero. generalize 0%R at 1 3.
  induction query_vector as [|[term n] qv IH]; intros s Hs; cbn [for_each].
  - intros [= <-]. lra.
  - destruct (Document.term_frequencies doc !! term) as [tf|] eqn:Hterm.
    + destruct (SearchEngine.idf_scores self !! term) as [idf|] eqn:Hvalue; [|done].
      rewrite bind_Ok. apply IH.
      pose proof (Htf term tf Hterm). pose proof (Hidf term idf Hvalue).
      pose proof (pos_INR n).
      assert (tf * idf <= 0)%R by nra.
      assert (tf * idf * (1 + INR n) <= 0)%R by nra. lra.
    + rewrite bind_Ok. by apply IH.
Qed.

(** X9: in a corpus of one or two records every score of every query is
    at most 0, since no IDF value is positive there; no result then
    reaches the threshold 1.0 of the interactive presenter, which
    reports no match for every query. *)
Theorem small_corpus_never_matches (books : list Book) (query : string) :
  (length books ≤ 2)%nat →
  ∃ engine ranking,
    load_engine books = Ok engine
    ∧ SearchEngine.search engine query = Ok ranking
    ∧ (∀ i score, (i, score) ∈ ranking → (score <= 0)%R)
    ∧ (display_results engine books ranking = Ok [NoMatch]
       ∨ display_results engine books ranking = Ok [NoMatchAbove 1%R]).
Proof.
  intros Hsmall.
  destruct (load_engine_ranking books)
    as (docs & engine & Hengine & _ & Hinit & Hlength & Hbooks & Hsearch).
  destruct (Hsearch query) as (ranking & Hranking & Hpairs).
  assert (∀ i score, (i, score) ∈ ranking → (score <= 0)%R) as Hscores.
  { intros i score (doc & Hdoc & ->)%Hpairs.
    unfold SearchEngine.score_of.
    destruct (SearchEngine.score_document engine _ doc) as [score|] eqn:Hscore; [|lra].
    eapply score_document_nonpositive; [| |exact Hscore].
    - intros term value Hterm.
      destruct (Hbooks i doc Hdoc) as (book & _ & Hprepare).
      destruct (SearchFacts.prepare_Ok i book) as (tf & Hprepare' & Htf).
      rewrite Hprepare in Hprepare'. injection Hprepare' as ->.
      cbn [Document.set_term_frequencies Document.term_frequencies] in Hterm.
      rewrite Htf in Hterm. case_decide as Hin; [|done]. injection Hterm as <-.
      left. by apply frequency_positive.
    - intros term value Hvalue.
      destruct (idf_value_bound docs engine term value Hinit Hvalue) as (_ & _ & Hle).
      apply Hle. lia. }
  exists engine, ranking. split_and!; [done|done|done|].
  unfold display_results. destruct ranking as [|p ranking]; [by left|]. right.
  rewrite filter_none; [done|].
  apply Forall_forall. intros [i score] Hin. cbn.
  pose proof (Hscores i score Hin). lra.
Qed.

(** X9 on a corpus of one record and a query that names it. *)
Lemma small_corpus_never_matches_witness :
  ∃ engine ranking,
    load_engine [mkBook "dune" "herbert" "classic"] = Ok engine
    ∧ SearchEngine.search engine "dune" = Ok ranking
    ∧ (∀ i score, (i, score) ∈ ranking → (score <= 0)%R)
    ∧ (display_results engine [mkBook "dune" "herbert" "classic"] ranking = Ok [NoMatch]
       ∨ display_results engine [mkBook "dune" "herbert" "classic"] ranking
         = Ok [NoMatchAbove 1%R]).
Proof.
  apply (small_corpus_never_matches [mkBook "dune" "herbert" "classic"] "dune").
  cbn [length]. lia.
Defined.

(** ** The query vector *)

Lemma dict_set_keys {V : Type} (k : string) (v : V) d :
  map fst (dict_set k v d)
  = if decide (k ∈ map fst d) then map fst d else map fst d ++ [k].
Proof.
  induction d as [|[k' v'] d IH]; cbn [dict_set map fst].
  - rewrite decide_False; [done|]. apply not_elem_of_nil.
  - destruct (decide (k' = k)) as [->|Hne]; cbn [map fst].
    + by rewrite decide_True by left.
    + rewrite IH. destruct (decide (k ∈ map fst d)) as [Hin|Hin].
      * by rewrite decide_True by by right.
      * rewrite decide_False; [done|]. by intros [?|?]%elem_of_cons.
Qed.

Lemma dict_set_elem_iff {V : Type} (k : string) (v : V) d e :
  NoDup (map fst d) →
  e ∈ dict_set k v d ↔ e = (k, v) ∨ (e ∈ d ∧ e.1 ≠ k).
Proof.
  induction d as [|[k' v'] d IH]; cbn [dict_set map fst]; intros Hd.
  - rewrite list_elem_of_singleton. split; [by left|].
    intros [?|[?%elem_of_nil _]]; done.
  - apply NoDup_cons in Hd as [Hk' Hd]. rewrite !elem_of_cons.
    destruct (decide (k' = k)) as [->|Hne]; rewrite ?elem_of_cons.
    + split.
      * intros [->|He]; [by left|]. right. split; [by right|].
        intros Heq. apply Hk'. rewrite <-Heq.
        by apply (list_elem_of_fmap_2 fst).
      * intros [->|[[->|He] Hne]]; [by left|done|by right].
    + rewrite IH by done. split.
      * intros [->|[->|[He Hne']]]; [right; split; [by left|done]|by left|].
        right. split; [by right|done].
      * intros [->|[[->|He] Hne']]; [right; by left|by left|].
        right. right. by split.
Qed.

Lemma dict_set_NoDup {V : Type} (k : string) (v : V) d :
  NoDup (map fst d) → NoDup (map fst (dict_set k v d)).
Proof.
  intros Hd. rewrite dict_set_keys. case_decide; [done|].
  apply NoDup_app. split_and!; [done| |apply NoDup_singleton].
  by intros x Hx ->%list_elem_of_singleton.
Qed.

(** X10: the query vector of [search] has one entry per distinct query
    term, and the value of a term is the number of its occurrences
    among the query terms. *)
Theorem query_vector_counts (query_terms : list string) :
  let query_vector := SearchEngine.query_vector_of query_terms in
  NoDup (map fst query_vector)
  ∧ ∀ term n,
      (term, n) ∈ query_vector
      ↔ term ∈ query_terms ∧ n = list_count term query_terms.
Proof.
  unfold SearchEngine.query_vector_of. cbv zeta.
  enough (∀ terms acc,
            NoDup (map fst acc) →
            NoDup (map fst
                     (foldl (λ qv term, dict_set term (list_count term query_terms) qv)
                        acc terms))
            ∧ ∀ term n,
                (term, n)
                ∈ foldl (λ qv term, dict_set term (list_count term query_terms) qv)
                    acc terms
                ↔ (term ∈ terms ∧ n = list_count term query_terms)
                  ∨ ((term ∉ terms) ∧ (term, n) ∈ acc)) as Hgen.
  { destruct (Hgen query_terms nil) as [Hnodup Hiff]; [constructor|].
    split; [done|]. intros term n. rewrite Hiff. split.
    - intros [?|[_ ?%elem_of_nil]]; done.
    - by left. }
  induction terms as [|t terms IH]; intros acc Hacc; cbn [foldl].
  - split; [done|]. intros term n. split.
    + intros Hin. right. split; [apply not_elem_of_nil|done].
    + intros [[?%elem_of_nil _]|[_ ?]]; done.
  - destruct (IH (dict_set t (list_count t query_terms) acc)) as [Hnodup Hiff];
      [by apply dict_set_NoDup|].
    split; [done|]. intros term n. rewrite Hiff, dict_set_elem_iff by done.
    rewrite not_elem_of_cons, elem_of_cons. cbn [fst]. split.
    + intros [[Hin ->]|[Hnin [[= -> ->]|[Hacc' Hne]]]].
      * left. split; [by right|done].
      * left. split; [by left|done].
      * right. by split_and!.
    + intros [[[->|Hin] ->]|[[Hne Hnin] Hacc']].
      * destruct (decide (t ∈ terms)); [by left|]. right. split; [done|by left].
      * by left.
      * right. split; [done|]. right. by split.
Qed.

(** ** What the presenters show *)

Lemma collect_app {A B : Type} (f : A → result B) xs ys :
  collect f (xs ++ ys)
  = (xs' ← collect f xs; ys' ← collect f ys; Ok (xs' ++ ys')).
Proof.
  induction xs as [|x xs IH]; cbn [collect app].
  - rewrite bind_Ok. by destruct (collect f ys).
  - destruct (f x) as [y|e]; [|done]. rewrite !bind_Ok, IH.
    destruct (collect f xs) as [xs'|e]; [|done]. rewrite !bind_Ok.
    by destruct (collect f ys).
Qed.

Lemma book_lines_app out out' :
  book_lines (out ++ out') = book_lines out ++ book_lines out'.
Proof.
  induction out as [|piece out IH]; [done|].
  destruct piece; cbn [book_lines app]; by rewrite IH.
Qed.

Lemma take_page {A : Type} (l : list A) (a b : nat) :
  take (Nat.min (a + b) (length l)) l
  = take (Nat.min a (length l)) l
    ++ take (Nat.min (a + b) (length l) - a) (drop a l).
Proof.
  destruct (decide (a ≤ length l)%nat) as [Hle|Hgt].
  - rewrite (Nat.min_l a) by done. rewrite take_take_drop. f_equal. lia.
  - rewrite !Nat.min_r by lia. rewrite drop_ge by lia.
    by rewrite take_nil, app_nil_r.
Qed.

Section Shown.
Variables (search_engine : SearchEngine.t) (preprocessed_books : list Book).

Lemma shows_book_lines entries pairs :
  Forall2 (shows search_engine preprocessed_books) entries pairs →
  book_lines entries = entries.
Proof.
  induction 1 as [|piece pair entries pairs (doc & book & _ & _ & ->) _ IH]; [done|].
  cbn [book_lines]. by rewrite IH.
Qed.

(** A page shows the pairs of its range, in order. *)
Lemma page_entries_shown filtered (start_index end_index : nat) :
  resolvable search_engine preprocessed_books filtered →
  (end_index ≤ length filtered)%nat →
  ∃ entries,
    page_entries search_engine preprocessed_books filtered start_index end_index
    = Ok entries
    ∧ Forall2 (shows search_engine preprocessed_books) entries
        (take (end_index - start_index) (drop start_index filtered)).
Proof.
  intros Hres Hend. unfold page_entries, range.
  assert ((end_index - start_index = 0)%nat
          ∨ (start_index + (end_index - start_index) ≤ length filtered)%nat) as Hm
    by lia.
  revert Hm. generalize (end_index - start_index)%nat. intros m. revert start_index.
  induction m as [|m IH]; intros start_index Hm.
  - exists []. split; [done|]. rewrite take_0. constructor.
  - destruct Hm as [Hm|Hm]; [done|].
    destruct (lookup_lt_is_Some_2 filtered start_index) as [[doc_id score] Hentry];
      [lia|].
    destruct (Hres doc_id score) as (doc & book & Hdoc & Hbook).
    { by eapply list_elem_of_lookup_2. }
    destruct (IH (S start_index)) as (entries & Hentries & Hshown); [lia|].
    cbn [seq collect]. rewrite (getitem_Ok _ _ _ Hentry), bind_Ok.
    rewrite (getitem_Ok _ _ _ Hdoc), bind_Ok.
    rewrite (getitem_Ok _ _ _ Hbook), !bind_Ok.
    rewrite Hentries, bind_Ok. eexists. split; [done|].
    rewrite (drop_S _ _ _ Hentry). cbn [take]. constructor; [|done].
    by exists doc, book.
Qed.

(** The pages numbered [0 .. num_pages - 1], whatever frames the entries
    of a page, show the first [num_pages * page_size] pairs, in order. *)
Lemma pages_shown (frame : nat → list Piece → list Piece) filtered
    (page_size num_pages : nat) :
  (∀ page_num entries, book_lines (frame page_num entries) = book_lines entries) →
  resolvable search_engine preprocessed_books filtered →
  ∃ pages,
    collect
      (fun page_num =>
         entries ← page_entries search_engine preprocessed_books filtered
                     (page_num * page_size)
                     (Nat.min (page_num * page_size + page_size) (length filtered));
         Ok (frame page_num entries))
      (seq 0 num_pages) = Ok pages
    ∧ Forall2 (shows search_engine preprocessed_books) (book_lines (concat pages))
        (take (Nat.min (num_pages * page_size) (length filtered)) filtered).
Proof.
  intros Hframe Hres. induction num_pages as [|k IH].
  - exists []. split; [done|]. cbn. rewrite take_0. constructor.
  - destruct IH as (pages & Hpages & Hshown).
    destruct (page_entries_shown filtered (k * page_size)
                (Nat.min (k * page_size + page_size) (length filtered)))
      as (entries & Hentries & Hentries_shown); [done|lia|].
    rewrite seq_S, collect_app, Hpages, bind_Ok. cbn [collect Nat.add].
    rewrite Hentries, !bind_Ok.
    eexists. split; [done|].
    rewrite concat_app, book_lines_app. cbn [concat]. rewrite app_nil_r, Hframe.
    rewrite (shows_book_lines _ _ Hentries_shown).
    replace (S k * page_size)%nat with (k * page_size + page_size)%nat by lia.
    rewrite take_page. by apply Forall2_app.
Qed.

End Shown.

Lemma pages_cap (n : nat) : Nat.min (Nat.min (n / 5 + 1) 10 * 5) n = Nat.min 50 n.
Proof.
  pose proof (Nat.div_mod_eq n 5) as Hdiv.
  pose proof (Nat.mod_upper_bound n 5). lia.
Qed.

Lemma take_min_length {A : Type} (l : list A) (k : nat) :
  take (Nat.min k (length l)) l = take k l.
Proof.
  destruct (decide (k ≤ length l)%nat); [by rewrite Nat.min_l|].
  rewrite Nat.min_r by lia. by rewrite !take_ge by lia.
Qed.

(** The interactive presenter on a resolvable ranking: it raises
    nothing and shows the first 50 qualifying pairs, best first. *)
Lemma display_results_shown engine books (ranking : list (nat * R)) :
  resolvable engine books ranking →
  ∃ out,
    display_results engine books ranking = Ok out
    ∧ Forall2 (shows engine books) (book_lines out)
        (take 50 (sort_desc snd (filter (λ p, p.2 >= 1)%R ranking))).
Proof.
  intros Hres. unfold display_results.
  destruct ranking as [|p ranking]; [exists [NoMatch]; split; [done|constructor]|].
  remember (filter (λ p, p.2 >= 1)%R (p :: ranking)) as filtered eqn:Hfiltered.
  assert (∀ e, e ∈ filtered → e ∈ p :: ranking) as Hsub.
  { intros e. rewrite Hfiltered. by intros [_ ?]%list_elem_of_filter. }
  clear Hfiltered.
  destruct filtered as [|q rest]; [exists [NoMatchAbove 1%R]; split; [done|constructor]|].
  cbn zeta. set (sorted := sort_desc snd (q :: rest)).
  destruct (pages_shown engine books
              (λ page_num entries, PageHeader (page_num + 1) :: entries ++ [PageBreak])
              sorted 5 (Nat.min (length sorted / 5 + 1) 10))
    as (pages & Hpages & Hshown).
  { intros page_num entries. cbn [book_lines]. rewrite book_lines_app. cbn [book_lines].
    by rewrite app_nil_r. }
  { eapply resolvable_subset; [|exact Hres].
    intros e. unfold sorted. rewrite sort_desc_perm. apply Hsub. }
  cbv beta in Hpages. unfold range. rewrite Nat.sub_0_r, Hpages, bind_Ok.
  exists (concat pages). split; [done|].
  by rewrite pages_cap, take_min_length in Hshown.
Qed.

(** The printing presenter on a resolvable ranking and a positive page
    size: it raises nothing and shows every qualifying pair, best
    first. *)
Lemma SearchEngine_display_results_shown self engine books
    (ranking : list (nat * R)) (threshold : R) (page_size : nat) :
  resolvable engine books ranking →
  page_size ≠ 0%nat →
  ∃ out,
    SearchEngine_display_results self engine books ranking threshold page_size = Ok out
    ∧ Forall2 (shows engine books) (book_lines out)
        (sort_desc snd (filter (λ p, p.2 >= threshold)%R ranking)).
Proof.
  intros Hres Hp. unfold SearchEngine_display_results.
  destruct ranking as [|p ranking]; [exists [NoMatch]; split; [done|constructor]|].
  remember (filter (λ p, p.2 >= threshold)%R (p :: ranking)) as filtered eqn:Hfiltered.
  assert (∀ e, e ∈ filtered → e ∈ p :: ranking) as Hsub.
  { intros e. rewrite Hfiltered. by intros [_ ?]%list_elem_of_filter. }
  clear Hfiltered.
  destruct filtered as [|q rest];
    [exists [NoMatchAbove threshold]; split; [done|constructor]|].
  cbn zeta. set (sorted := sort_desc snd (q :: rest)).
  unfold math_ceil_div. destruct page_size as [|page_size']; [done|].
  rewrite bind_Ok. set (page_size := S page_size') in *.
  destruct (pages_shown engine books
              (λ page_num entries, PageHeader (page_num + 1) :: entries)
              sorted page_size ((length sorted + page_size - 1) / page_size))
    as (pages & Hpages & Hshown).
  { done. }
  { eapply resolvable_subset; [|exact Hres].
    intros e. unfold sorted. rewrite sort_desc_perm. apply Hsub. }
  cbv beta in Hpages. unfold range. rewrite Nat.sub_0_r, Hpages, bind_Ok.
  exists (concat pages). split; [done|].
  rewrite Nat.min_r in Hshown; [by rewrite firstn_all in Hshown|].
  pose proof (Nat.div_mod_eq (length sorted + page_size - 1) page_size) as Hdiv.
  pose proof (Nat.mod_upper_bound (length sorted + page_size - 1) page_size Hp). nia.
Qed.

(** In the program's engine a shown entry is the record at the pair's
    id. *)
Lemma load_engine_shows (books : list Book) engine piece pair :
  load_engine books = Ok engine →
  shows engine books piece pair → line_of books pair = Some piece.
Proof.
  intros Hengine (doc & book & Hdoc & Hbook & ->).
  destruct (load_engine_ranking books)
    as (docs & engine' & Hengine' & Hdocuments & _ & _ & Hbooks & _).
  assert (engine' = engine) as -> by congruence.
  rewrite Hdocuments in Hdoc.
  destruct (Hbooks _ _ Hdoc) as (book' & Hbook' & Hprepare).
  destruct (SearchFacts.prepare_Ok pair.1 book') as (tf & Hprepare' & _).
  rewrite Hprepare in Hprepare'. injection Hprepare' as ->.
  cbn [Document.set_term_frequencies Document.doc_id Document.init] in *.
  unfold line_of. rewrite Hbook. done.
Qed.

Lemma Forall2_line_of (books : list Book) engine entries pairs :
  load_engine books = Ok engine →
  Forall2 (shows engine books) entries pairs →
  Forall2 (λ piece pair, line_of books pair = Some piece) entries pairs.
Proof.
  intros Hengine Hshown. eapply Forall2_impl; [exact Hshown|].
  intros piece pair. by apply load_engine_shows.
Qed.

(** The interactive presenter in the program's engine, on a ranking over
    ids of the corpus. *)
Lemma loaded_display_results_shown (books : list Book) engine
    (ranking : list (nat * R)) :
  load_engine books = Ok engine →
  (∀ id score, (id, score) ∈ ranking → (id < length books)%nat) →
  ∃ out,
    display_results engine books ranking = Ok out
    ∧ Forall2 (λ piece pair, line_of books pair = Some piece) (book_lines out)
        (take 50 (sort_desc snd (filter (λ p, p.2 >= 1)%R ranking))).
Proof.
  intros Hengine Hids.
  destruct (display_results_shown engine books ranking) as (out & Hout & Hshown).
  { by apply load_engine_resolvable. }
  exists out. split; [done|]. by eapply Forall2_line_of.
Qed.

(** X11: for the program's engine and any ranking over ids of the
    corpus, the interactive presenter raises nothing, and the entries
    of its output are, in order, those of the first 50 pairs with score
    at least 1.0 taken best first, ties in the order of the ranking:
    each entry carries the id, the title and author of the record at
    that id, and the score. *)
Theorem display_results_top_fifty (books : list Book) (ranking : list (nat * R)) :
  (∀ id score, (id, score) ∈ ranking → (id < length books)%nat) →
  ∃ engine out,
    load_engine books = Ok engine
    ∧ display_results engine books ranking = Ok out
    ∧ Forall2 (λ piece pair, line_of books pair = Some piece) (book_lines out)
        (take 50 (sort_desc snd (filter (λ p, p.2 >= 1)%R ranking))).
Proof.
  intros Hids.
  destruct (load_engine_Ok books) as (docs & engine & _ & Hengine & _).
  destruct (loaded_display_results_shown books engine ranking Hengine Hids)
    as (out & Hout & Hshown).
  by exists engine, out.
Qed.

(** X11 on a corpus of 12 records and a ranking with 5 qualifying
    pairs. *)
Lemma display_results_top_fifty_witness :
  ∃ engine out,
    load_engine (corpus_of 12) = Ok engine
    ∧ display_results engine (corpus_of 12) (ranking_of 5 12) = Ok out
    ∧ Forall2 (λ piece pair, line_of (corpus_of 12) pair = Some piece) (book_lines out)
        (take 50 (sort_desc snd (filter (λ p, p.2 >= 1)%R (ranking_of 5 12)))).
Proof.
  apply (display_results_top_fifty (corpus_of 12) (ranking_of 5 12)).
  intros id score Hin. cbn in Hin.
  repeat (apply elem_of_cons in Hin as [[= -> _]|Hin]; [cbn; lia|]).
  by apply elem_of_nil in Hin.
Defined.

(** X12: for the program's engine, a positive page size and any ranking
    over ids of the corpus, the printing presenter raises nothing and
    shows every pair with score at least the threshold, best first; it
    prints [ceil(n / page_size)] pages for [n] such pairs, and every
    page has at least one entry and at most [page_size]. *)
Theorem printed_results_all (books : list Book) (ranking : list (nat * R))
    (threshold : R) (page_size : nat) :
  (∀ id score, (id, score) ∈ ranking → (id < length books)%nat) →
  page_size ≠ 0%nat →
  let qualifying := filter (λ p, p.2 >= threshold)%R ranking in
  ∃ engine out,
    load_engine books = Ok engine
    ∧ SearchEngine_display_results engine engine books ranking threshold page_size
      = Ok out
    ∧ Forall2 (λ piece pair, line_of books pair = Some piece) (book_lines out)
        (sort_desc snd qualifying)
    ∧ math_ceil_div (length qualifying) page_size = Ok (length (page_sizes out))
    ∧ Forall (λ size, (1 ≤ size ≤ page_size)%nat) (page_sizes out).
Proof.
  intros Hids Hp qualifying.
  destruct (load_engine_Ok books) as (docs & engine & _ & Hengine & _).
  assert (resolvable engine books ranking) as Hres by by apply load_engine_resolvable.
  destruct (SearchEngine_display_results_shown engine engine books ranking threshold
              page_size Hres Hp) as (out & Hout & Hshown).
  exists engine, out. split_and!; [done|done|by eapply Forall2_line_of| |].
  - unfold math_ceil_div. destruct page_size as [|p']; [done|]. f_equal.
    destruct (decide (length qualifying = 0%nat)) as [Hzero|Hn].
    + rewrite Hzero. apply nil_length_inv in Hzero. unfold qualifying in Hzero.
      unfold SearchEngine_display_results in Hout. rewrite Hzero in Hout.
      destruct ranking; injection Hout as <-; cbn [page_sizes length];
        apply Nat.div_small; lia.
    + destruct (SearchEngine_display_results_pages engine engine books ranking
                  threshold (S p') Hres Hn Hp) as (out' & Hout' & Hsizes).
      assert (out' = out) as -> by congruence.
      fold qualifying in Hsizes. by rewrite Hsizes, length_map, length_seq.
  - destruct (decide (length qualifying = 0%nat)) as [Hzero|Hn].
    + apply nil_length_inv in Hzero. unfold qualifying in Hzero.
      unfold SearchEngine_display_results in Hout. rewrite Hzero in Hout.
      destruct ranking; injection Hout as <-; constructor.
    + destruct (SearchEngine_display_results_pages engine engine books ranking
                  threshold page_size Hres Hn Hp) as (out' & Hout' & Hsizes).
      assert (out' = out) as -> by congruence.
      fold qualifying in Hsizes. rewrite Hsizes. apply Forall_forall.
      intros size (k & -> & Hk%elem_of_seq)%list_elem_of_fmap.
      unfold page_size_of.
      pose proof (Nat.div_mod_eq (length qualifying + page_size - 1) page_size) as Hdiv.
      pose proof (Nat.mod_upper_bound (length qualifying + page_size - 1) page_size Hp).
      nia.
Qed.

(** X12 on a corpus of 12 records, 5 qualifying pairs and pages of 5. *)
Lemma printed_results_all_witness :
  let qualifying := filter (λ p, p.2 >= 1)%R (ranking_of 5 12) in
  ∃ engine out,
    load_engine (corpus_of 12) = Ok engine
    ∧ SearchEngine_display_results engine engine (corpus_of 12) (ranking_of 5 12) 1%R 5
      = Ok out
    ∧ Forall2 (λ piece pair, line_of (corpus_of 12) pair = Some piece) (book_lines out)
        (sort_desc snd qualifying)
    ∧ math_ceil_div (length qualifying) 5 = Ok (length (page_sizes out))
    ∧ Forall (λ size, (1 ≤ size ≤ 5)%nat) (page_sizes out).
Proof.
  apply (printed_results_all (corpus_of 12) (ranking_of 5 12) 1%R 5).
  - intros id score Hin. cbn in Hin.
    repeat (apply elem_of_cons in Hin as [[= -> _]|Hin]; [cbn; lia|]).
    by apply elem_of_nil in Hin.
  - lia.
Defined.

Lemma StronglySorted_weaken {A : Type} (rel rel' : A → A → Prop) (l : list A) :
  (∀ a b, rel a b → rel' a b) → StronglySorted rel l → StronglySorted rel' l.
Proof.
  intros Himpl. induction 1 as [|x l Hsorted IH Hx]; constructor; [done|].
  eapply Forall_impl; [exact Hx|]. intros b. apply Himpl.
Qed.

Lemma StronglySorted_filter_list {A : Type} (rel : A → A → Prop) (P : A → Prop)
    `{∀ x, Decision (P x)} (l : list A) :
  StronglySorted rel l → StronglySorted rel (filter P l).
Proof.
  induction 1 as [|x l Hsorted IH Hx]; [constructor|].
  rewrite filter_cons. case_decide; [|done]. constructor; [done|].
  rewrite Forall_forall in Hx. apply Forall_forall.
  intros y [_ Hy]%list_elem_of_filter. by apply Hx.
Qed.

(** The output of the stable sort never increases in the key. *)
Lemma sort_desc_descending {A : Type} (key : A → R) (l : list A) :
  StronglySorted (λ a b, key a >= key b)%R (sort_desc key l).
Proof.
  apply (StronglySorted_weaken (desc_then key (λ _ _, True))).
  - intros a b [Hgt|[Heq _]]; lra.
  - apply sort_desc_sorted.
    induction l as [|x l IH]; constructor; [done|]. by apply Forall_forall.
Qed.

Lemma book_line_elem (out : list Piece) i t a s :
  BookLine i t a s ∈ out ↔ BookLine i t a s ∈ book_lines out.
Proof.
  induction out as [|piece out IH]; [done|].
  destruct piece; cbn [book_lines]; rewrite ?elem_of_cons, IH; split;
    try (intros [?|?]; [done|done]); try by right.
  all: intros [?|?]; [by left|by right].
Qed.

(** X13: the request handler, for the program's engine of any corpus
    and any query, raises nothing.  The entries of the page it renders
    are, in order, the first 50 pairs of the ranking that have score at
    least 1.0; so every entry shown has score at least 1.0 and carries
    the title and author of the record at its id. *)
Theorem index_post_shows_best (books : list Book) (query : string) :
  ∃ engine ranking out,
    load_engine books = Ok engine
    ∧ SearchEngine.search engine query = Ok ranking
    ∧ index_post engine books query = Ok out
    ∧ Forall2 (λ piece pair, line_of books pair = Some piece) (book_lines out)
        (take 50 (filter (λ p, p.2 >= 1)%R ranking))
    ∧ ∀ i t a s,
        BookLine i t a s ∈ out →
        (s >= 1)%R
        ∧ ∃ book, books !! i = Some book
                  ∧ t = book_title book ∧ a = book_author book.
Proof.
  destruct (load_engine_Ok books)
    as (docs & engine & _ & Hengine & _ & _ & _ & _ & Hsearch).
  destruct (load_engine_ranking books)
    as (docs' & engine' & Hengine' & _ & _ & Hlength & _ & Hpairs).
  assert (engine' = engine) as -> by congruence.
  destruct (Hpairs query) as (ranking & Hranking & Hiff).
  assert (StronglySorted (λ a b, a.2 >= b.2)%R ranking) as Hsorted.
  { rewrite Hsearch in Hranking. injection Hranking as <-.
    apply (sort_desc_descending snd). }
  destruct (loaded_display_results_shown books engine ranking Hengine)
    as (out & Hout & Hshown).
  { intros id score (doc & Hdoc & _)%Hiff. rewrite <-Hlength.
    by eapply lookup_lt_Some. }
  rewrite (sort_desc_sorted_id snd) in Hshown
    by by apply StronglySorted_filter_list.
  exists engine, ranking, out. split_and!; [done|done| |done|].
  { unfold index_post. by rewrite Hranking, bind_Ok. }
  intros i t a s Hin%book_line_elem.
  apply list_elem_of_lookup in Hin as [k Hk].
  destruct (Forall2_lookup_l _ _ _ _ _ Hshown Hk) as ([j score] & Hpair & Hline).
  unfold line_of in Hline. cbn [fst snd] in Hline.
  destruct (books !! j) as [book|] eqn:Hbook; [|done].
  injection Hline as <- <- <- <-. split; [|by exists book].
  apply list_elem_of_lookup_2, elem_of_take in Hpair as (k' & Hpair & _).
  by apply list_elem_of_lookup_2, list_elem_of_filter in Hpair as [? _].
Qed.

(** ** Text normalisation *)

Example punctuation_pattern_parses :
  compile_set punctuation_pattern = Some punctuation_set
  ∧ length punctuation_set = 29%nat
  ∧ in_set punctuation_set "]" = true
  ∧ in_set punctuation_set "-" = true
  ∧ in_set punctuation_set backslash = false.
Proof. split_and!; vm_compute; reflexivity. Qed.

Module NormaliseFacts.

(** The set of the pattern holds the punctuation characters but the
    backslash, and nothing else. *)
Lemma punctuation_set_members (c : ascii) :
  in_set punctuation_set c
  = existsb (Ascii.eqb c) (chars string_punctuation) && negb (Ascii.eqb c backslash).
Proof. destruct c as [[] [] [] [] [] [] [] []]; vm_compute; reflexivity. Qed.

Lemma existsb_eqb_elem (c : ascii) (l : list ascii) :
  existsb (Ascii.eqb c) l = true ↔ c ∈ l.
Proof.
  induction l as [|a l IH]; cbn [existsb].
  - split; [done|]. by intros ?%elem_of_nil.
  - rewrite orb_true_iff, IH, elem_of_cons, Ascii.eqb_eq. done.
Qed.

Lemma chars_delete_set items text c :
  c ∈ chars (delete_set items text) ↔ c ∈ chars text ∧ in_set items c = false.
Proof.
  unfold chars. induction text as [|a text IH]; cbn [delete_set list_ascii_of_string].
  - split; [by intros ?%elem_of_nil|]. by intros [?%elem_of_nil _].
  - destruct (in_set items a) eqn:Ha; cbn [list_ascii_of_string];
      rewrite ?elem_of_cons, IH.
    + split; [intros [? ?]; split; [by right|done]|].
      intros [[->|?] Hc]; [congruence|done].
    + split.
      * intros [->|[? ?]]; [split; [by left|done]|split; [by right|done]].
      * intros [[->|?] Hc]; [by left|by right].
Qed.

Lemma delete_set_id items text :
  (∀ c, c ∈ chars text → in_set items c = false) → delete_set items text = text.
Proof.
  unfold chars. induction text as [|a text IH]; intros Hc; [done|].
  cbn [delete_set list_ascii_of_string] in *.
  rewrite (Hc a) by left. f_equal. apply IH. intros c Hin. apply Hc. by right.
Qed.

End NormaliseFacts.

(** X14: the character set that [preprocess_text] deletes holds every
    character of [string.punctuation] except the backslash, which the
    pattern spends on escaping the closing bracket: the text after the
    deletion has a character exactly when the lowered text has it and
    it is a backslash or no punctuation character. *)
Theorem punctuation_removal_keeps_backslash (text : string) (c : ascii) :
  c ∈ chars (delete_set punctuation_set (Str.lower text))
  ↔ c ∈ chars (Str.lower text)
    ∧ (c = backslash ∨ c ∉ chars string_punctuation).
Proof.
  rewrite NormaliseFacts.chars_delete_set, NormaliseFacts.punctuation_set_members.
  rewrite andb_false_iff, negb_false_iff, Ascii.eqb_eq.
  rewrite <-not_true_iff_false, NormaliseFacts.existsb_eqb_elem.
  split; intros [Hin [?|?]]; split; auto.
Qed.

(** X15: when the stemmer returns a token (not empty, no whitespace) for
    each word that is kept, the tokens that the index and the documents
    later read off the result of [preprocess_text] are the stemmed
    words themselves, in order: the words of the lowered text without
    its punctuation, the stop words left out. *)
Theorem preprocess_text_tokens (text : string) (stop_words : gset string)
    (stem : string → string) :
  let words := Str.split (delete_set punctuation_set (Str.lower text)) in
  let kept := filter (λ word, word ∉ stop_words) words in
  Forall (λ word, is_token (stem word) = true) kept →
  Str.split (preprocess_text text stop_words stem) = map stem kept.
Proof.
  intros words kept Hstem. unfold preprocess_text. cbv zeta.
  apply TokenFacts.split_join. by apply Forall_fmap.
Qed.

(** X15 on a title with capitals, punctuation and stop words, and a
    stemmer that cuts a final "s". *)
Lemma preprocess_text_tokens_witness :
  let stem := λ word, if String.eqb word "wars" then "war" else word in
  Str.split (preprocess_text "The Art, of Wars!" {["the"; "of"]} stem)
  = map stem
      (filter (λ word, word ∉ ({["the"; "of"]} : gset string))
         (Str.split (delete_set punctuation_set (Str.lower "The Art, of Wars!")))).
Proof.
  intros stem.
  apply (preprocess_text_tokens "The Art, of Wars!" {["the"; "of"]} stem).
  cbv zeta.
  match goal with |- ?G => refine (@bool_decide_unpack G _ _) end.
  vm_compute. exact I.
Defined.

Example preprocess_text_example :
  preprocess_text "The Art, of Wars!" {["the"; "of"]}
    (λ word, if String.eqb word "wars" then "war" else word)
  = "art war"
  ∧ preprocess_text "C:\temp (files)" ∅ (λ word, word) = "c\temp files".
Proof. split; vm_compute; reflexivity. Qed.

(** ** The two searches *)

(** A score other than 0 comes from a query term that the document
    holds. *)
Lemma score_document_matched (self : SearchEngine.t) query_vector doc score :
  SearchEngine.score_document self query_vector doc = Ok score →
  score ≠ 0%R →
  ∃ term n, (term, n) ∈ query_vector
            ∧ is_Some (Document.term_frequencies doc !! term).
Proof.
  intros Hscore Hne.
  destruct (decide (Exists (λ e, is_Some (Document.term_frequencies doc !! e.1))
                      query_vector)) as [Hex|Hnex].
  - apply Exists_exists in Hex as ([term n] & Hin & Hsome). by exists term, n.
  - rewrite score_document_unmatched in Hscore; [congruence|].
    intros term n Hin.
    destruct (Document.term_frequencies doc !! term) eqn:Hterm; [|done].
    exfalso. apply Hnex, Exists_exists. exists (term, n). split; [done|].
    cbn. rewrite Hterm. by eexists.
Qed.

(** X16: in the program's engine, a document whose score for a query is
    not 0 is among the ids that [InvertedIndex.search] returns for the
    lowered query on the engine's index: scoring finds nothing that the
    index does not hold. *)
Theorem scored_documents_are_indexed (books : list Book) (query : string) :
  ∃ engine ranking,
    load_engine books = Ok engine
    ∧ SearchEngine.search engine query = Ok ranking
    ∧ ∀ i score,
        (i, score) ∈ ranking →
        score ≠ 0%R →
        i ∈ (InvertedIndex.search (Str.lower query) (SearchEngine.index engine)).1.
Proof.
  destruct (load_engine_ranking books)
    as (docs & engine & Hengine & Hdocuments & Hinit & Hlength & Hbooks & Hsearch).
  destruct (Hsearch query) as (ranking & Hranking & Hpairs).
  destruct (IdfFacts.init_Ok docs) as (engine' & Hinit' & _ & Hindex & _).
  assert (engine' = engine) as -> by congruence.
  exists engine, ranking. split_and!; [done|done|].
  intros i score (doc & Hdoc & ->)%Hpairs Hne.
  unfold SearchEngine.score_of in Hne.
  destruct (SearchEngine.score_document engine _ doc) as [score|] eqn:Hscore; [|done].
  destruct (score_document_matched _ _ _ _ Hscore Hne) as (term & n & Hterm & Htf).
  apply SearchFacts.query_vector_keys in Hterm.
  destruct (Hbooks i doc Hdoc) as (book & Hbook & Hprepare).
  destruct (SearchFacts.prepare_Ok i book) as (tf & Hprepare' & Htable).
  rewrite Hprepare in Hprepare'. injection Hprepare' as ->.
  cbn [Document.set_term_frequencies Document.term_frequencies] in Htf.
  rewrite Htable, DocumentFacts.init_tokens in Htf.
  case_decide as Hin; [|by destruct Htf].
  rewrite search_eq, Hindex. cbn [fst].
  rewrite elem_of_elements, elem_of_list_to_set, elem_of_concat.
  exists (lookup_any_field (InvertedIndex.index_data docs InvertedIndex.init) term).
  split; [|apply list_elem_of_fmap; by exists term].
  assert (∀ field,
            field_occurrences term field
              (Document.set_term_frequencies
                 (Document.init i (book_title book) (book_author book)
                    (book_description book)) tf) ≠ 0%nat →
            i ∈ posting (term, field)
                  (InvertedIndex.index_data docs InvertedIndex.init)) as Hposting.
  { intros field Hocc. rewrite PostingFacts.posting_index_data.
    change (posting (term, field) InvertedIndex.init) with (@nil nat). cbn [app].
    set (doc := Document.set_term_frequencies _ tf) in *.
    apply elem_of_concat.
    exists (replicate (field_occurrences term field doc) (Document.doc_id doc)).
    split.
    - apply elem_of_replicate. by split.
    - apply list_elem_of_fmap. exists doc. split; [done|].
      by eapply list_elem_of_lookup_2. }
  unfold lookup_any_field. rewrite !elem_of_app.
  rewrite !elem_of_app in Hin.
  destruct Hin as [Hin|[Hin|Hin]]; [left|right; left|right; right];
    apply Hposting, PostingFacts.list_count_pos; exact Hin.
Qed.
